(** * Osiris: proxy sidecar, activator host index and zeroscaler collector

    A shallow embedding of the Go sources

    - package [proxy] ([singlePortProxy]: request counting),
    - package [activator], [pkg/deployments/activator/index.go]
      ([updateIndex], [cleanAnnotationValue]),
    - package [zeroscaler] ([metricsCollector]: [collectMetrics],
      [scaleToZero]),

    together with the properties of these functions.

    Go strings are byte sequences and are modelled by [string] (a list of
    8-bit [ascii] characters).  Go maps are [gmap]s, Go sets
    ([map[string]struct{}]) are [gset]s, [uint64] values are integers in [Z]
    whose wrap-around is written out, run-time panics (index out of range)
    are the [Panic] constructor of [result]. *)

From Stdlib Require Import ZArith Lia Ascii.
From stdpp Require Import base option list strings gmap fin_maps fin_sets.

Local Open Scope Z_scope.

(* ===================================================================== *)
(** * Part I: the Go standard library functions used by the sources      *)
(* ===================================================================== *)

Module strings.

(** ** Bytes *)

Definition byte (c : ascii) : N := N_of_ascii c.

(** The single quote, the only cutset the sources trim with. *)
Definition quote : ascii := "'"%char.

(** [asciiSpace] of package strings: tab, newline, vertical tab, form feed,
    carriage return, space. *)
Definition isAsciiSpace (a : ascii) : bool :=
  match a with
  | "009" | "010" | "011" | "012" | "013" | " " => true
  | _ => false
  end%char.

(** The two-byte UTF-8 encodings of the runes [unicode.IsSpace] accepts:
    U+0085 (C2 85) and U+00A0 (C2 A0). *)
Definition isSpace2 (a b : ascii) : bool :=
  (byte a =? 194)%N && ((byte b =? 133)%N || (byte b =? 160)%N).

(** The three-byte encodings: U+1680 (E1 9A 80), U+2000..U+200A
    (E2 80 80..8A), U+2028, U+2029 (E2 80 A8, A9), U+202F (E2 80 AF),
    U+205F (E2 81 9F), U+3000 (E3 80 80). *)
Definition isSpace3 (a b c : ascii) : bool :=
  ((byte a =? 225)%N && (byte b =? 154)%N && (byte c =? 128)%N)
  || ((byte a =? 226)%N && (byte b =? 128)%N
      && (((128 <=? byte c)%N && (byte c <=? 138)%N)
          || (byte c =? 168)%N || (byte c =? 169)%N || (byte c =? 175)%N))
  || ((byte a =? 226)%N && (byte b =? 129)%N && (byte c =? 159)%N)
  || ((byte a =? 227)%N && (byte b =? 128)%N && (byte c =? 128)%N).

(** [TrimLeftFunc(s, unicode.IsSpace)]: the decoder yields a white-space rune
    at the front of [s] exactly when [s] starts with the (unique, shortest)
    encoding of one; any other byte, valid or not, stops the scan.  With
    [back := true] the string is read from its end, the bytes of an encoding
    arriving in reverse order (this is [TrimRightFunc] on the reversed
    string). *)
Fixpoint stripSpaces (back : bool) (s : string) : string :=
  match s with
  | "" => ""
  | String a s1 =>
    if isAsciiSpace a then stripSpaces back s1
    else match s1 with
         | "" => s
         | String b s2 =>
           if (if back then isSpace2 b a else isSpace2 a b)
           then stripSpaces back s2
           else match s2 with
                | "" => s
                | String c s3 =>
                  if (if back then isSpace3 c b a else isSpace3 a b c)
                  then stripSpaces back s3
                  else s
                end
         end
  end.

(** [strings.TrimSpace]: leading white space is removed first, then trailing
    white space of what is left. *)
Definition TrimSpace (s : string) : string :=
  String.rev (stripSpaces true (String.rev (stripSpaces false s))).

(** [strings.TrimLeft(s, cutset)] for a cutset of one ASCII byte
    ([trimLeftByte]): every leading byte equal to [c] is removed. *)
Fixpoint TrimLeft (s : string) (c : ascii) : string :=
  match s with
  | "" => ""
  | String a r => if decide (a = c) then TrimLeft r c else s
  end.

(** [strings.TrimRight(s, cutset)] for a cutset of one ASCII byte
    ([trimRightByte]): every trailing byte equal to [c] is removed. *)
Fixpoint TrimRight (s : string) (c : ascii) : string :=
  match s with
  | "" => ""
  | String a r =>
    match TrimRight r c with
    | "" => if decide (a = c) then "" else String a ""
    | r' => String a r'
    end
  end.

(** [strings.TrimPrefix] and [strings.TrimSuffix] for a one-byte affix: at
    most one byte is removed.  The sources do not call them; they are what
    stripping a single quote would be. *)
Definition TrimPrefix (s : string) (c : ascii) : string :=
  match s with
  | String a r => if decide (a = c) then r else s
  | "" => ""
  end.

Definition TrimSuffix (s : string) (c : ascii) : string :=
  String.rev (TrimPrefix (String.rev s) c).

(** [strings.HasPrefix]. *)
Fixpoint HasPrefix (s prefix : string) : bool :=
  match prefix, s with
  | "", _ => true
  | String p prefix', String a s' => bool_decide (a = p) && HasPrefix s' prefix'
  | String _ _, "" => false
  end.

(** [strings.Contains]. *)
Fixpoint Contains (s substr : string) : bool :=
  HasPrefix s substr
  || match s with
     | "" => false
     | String _ s' => Contains s' substr
     end.

(** [strings.Split(s, sep)] for a separator of one byte: the pieces between
    the occurrences of [sep]; a string without [sep] (the empty string too)
    is the only piece. *)
Fixpoint Split (s : string) (sep : ascii) : list string :=
  match s with
  | "" => [""]
  | String a r =>
    if decide (a = sep) then "" :: Split r sep
    else match Split r sep with
         | piece :: pieces => String a piece :: pieces
         | [] => [String a ""]
         end
  end.

(** [strings.SplitN(s, sep, 2)] for a separator of one byte: [s] is cut at
    the first occurrence of [sep] only; without one the result is [[s]]. *)
Fixpoint SplitN2 (s : string) (sep : ascii) : list string :=
  match s with
  | "" => [""]
  | String a r =>
    if decide (a = sep) then [""; r]
    else match SplitN2 r sep with
         | [piece] => [String a piece]
         | piece :: rest => String a piece :: rest
         | [] => [String a ""]
         end
  end.

(** [strings.ToLower] on the ASCII letters.  Bytes from 0x80 on are kept:
    the sources only compare the result with the ASCII words "deployment" and
    "statefulset", and no rune outside ASCII has a lower case made of the
    letters of these words alone. *)
Definition toLowerByte (a : ascii) : ascii :=
  if ((65 <=? byte a)%N && (byte a <=? 90)%N)%bool
  then ascii_of_N (byte a + 32) else a.

Fixpoint ToLower (s : string) : string :=
  match s with
  | "" => ""
  | String a r => String (toLowerByte a) (ToLower r)
  end.

End strings.

Module fmt.

(** [fmt.Sprintf("%d", n)]: the decimal digits of [n], most significant
    first, with a leading minus sign for a negative number. *)
Definition digit (n : N) : ascii := ascii_of_N (48 + n).

Fixpoint digitsFuel (fuel : nat) (n : N) (acc : string) : string :=
  match fuel with
  | O => acc
  | S fuel' =>
    let acc' := String (digit (n mod 10)) acc in
    if (n <? 10)%N then acc' else digitsFuel fuel' (n / 10) acc'
  end.

Definition Sprintf_d (n : Z) : string :=
  let m := Z.to_N (Z.abs n) in
  let ds := digitsFuel (S (N.to_nat (N.log2 m))) m "" in
  if (n <? 0)%Z then String "-" ds else ds.

End fmt.

(** [s] does not start with [c], does not end with [c]. *)
Definition noLeading (c : ascii) (s : string) : Prop := forall r, s <> String c r.
Definition noTrailing (c : ascii) (s : string) : Prop := forall l, s <> l +:+ String c "".

(** [c] is one of the bytes of [s]. *)
Fixpoint hasByte (c : ascii) (s : string) : bool :=
  match s with
  | "" => false
  | String a r => bool_decide (a = c) || hasByte c r
  end.

(** [n] bytes [c]. *)
Fixpoint repeatByte (n : nat) (c : ascii) : string :=
  match n with
  | O => ""
  | S n' => String c (repeatByte n' c)
  end.

(** The result of code that can panic (index out of range). *)
Inductive result (A : Type) : Type :=
  | Ok (a : A)
  | Panic (msg : string).
Arguments Ok {A} a.
Arguments Panic {A} msg.

#[global] Instance result_ret : MRet result := @Ok.
#[global] Instance result_bind : MBind result := fun A B k r =>
  match r with
  | Ok a => k a
  | Panic msg => Panic msg
  end.

(** [xs[i]] on a slice: a panic when [i] is out of range. *)
Definition index {A : Type} (xs : list A) (i : nat) : result A :=
  match xs !! i with
  | Some x => Ok x
  | None => Panic "index out of range"
  end.

(** A [for ... range] loop whose body can panic. *)
Fixpoint forM {A S : Type} (body : A -> S -> result S) (xs : list A) (s : S)
  : result S :=
  match xs with
  | [] => Ok s
  | x :: xs' => s' ← body x s; forM body xs' s'
  end.

(** [uint64] arithmetic wraps around. *)
Definition uint64_max : Z := 2 ^ 64.
Definition wrap64 (n : Z) : Z := n mod uint64_max.
Definition is_uint64 (n : Z) : Prop := 0 <= n < uint64_max.

(** [atomic.AddUint64(addr, delta)]: the new value of the cell. *)
Definition atomic_AddUint64 (cell delta : Z) : Z := wrap64 (cell + delta).

(* ===================================================================== *)
(** * Part II: the proxy sidecar ([singlePortProxy])                     *)
(* ===================================================================== *)

Module proxy.

(** [url.URL], of which the proxy reads [Path]. *)
Record URL := { Path : string }.

(** [http.Request]: [URL] is a pointer and may be nil; [Header] maps a
    canonical header name to its values. *)
Record Request := {
  RequestURL : option URL;
  Header : gmap string (list string);
}.

(** [http.Header.Get]: the first value of the header, the empty string when
    there is none. *)
Definition Header_Get (h : gmap string (list string)) (key : string) : string :=
  match h !! key with
  | Some (v :: _) => v
  | _ => ""
  end.

(** [singlePortProxy]: [requestCount] points to a counter cell that lives
    outside the struct; the cell is the state the handler threads. *)
Record singlePortProxy := {
  appPort : Z;
  ignoredPaths : gset string;
}.

Definition isKubeProbe (r : Request) : bool :=
  strings.Contains (Header_Get (Header r) "User-Agent") "kube-probe".

Definition isIgnoredPath (s : singlePortProxy) (r : Request) : bool :=
  match RequestURL r with
  | None => false
  | Some u =>
    if decide (String.length (Path u) = 0%nat) then false
    else bool_decide (Path u ∈ ignoredPaths s)
  end.

Definition isIgnoredRequest (s : singlePortProxy) (r : Request) : bool :=
  isIgnoredPath s r || isKubeProbe r.

(** [handleRequest]: the new value of the counter cell, and the attribute
    [osiris.proxy.request.count] set on the span when the request is
    counted.  The request is forwarded in both cases. *)
Definition handleRequest (s : singlePortProxy) (r : Request) (requestCount : Z)
  : Z * option Z :=
  if isIgnoredRequest s r then (requestCount, None)
  else
    let requestCount' := atomic_AddUint64 requestCount 1 in
    (requestCount', Some requestCount').

(** The counter after a sequence of requests; the atomic increments of
    concurrent handlers take effect one after the other, in some order. *)
Definition serve (s : singlePortProxy) (rs : list Request) (requestCount : Z) : Z :=
  foldl (fun cell r => fst (handleRequest s r cell)) requestCount rs.

(** The requests of [rs] that are not ignored. *)
Definition counted (s : singlePortProxy) (rs : list Request) : list Request :=
  filter (fun r => isIgnoredRequest s r = false) rs.

(** A request is ignored as section 4.1 of the specification words it: its
    URL path is in [ignoredPaths], or its User-Agent contains the probe
    substring. *)
Definition ignoredAsSpecified (s : singlePortProxy) (r : Request) : Prop :=
  (exists u, RequestURL r = Some u /\ Path u ∈ ignoredPaths s)
  \/ (exists pre post,
        Header_Get (Header r) "User-Agent" = pre +:+ "kube-probe" +:+ post).

(** ** Requests and proxies the properties are tried on *)

(** A readiness probe of the kubelet, and a request of a client. *)
Definition probe : Request :=
  {| RequestURL := Some {| Path := "/" |};
     Header := {[ "User-Agent" := ["kube-probe/1.27"] ]} |}.

Definition getOf (path : string) : Request :=
  {| RequestURL := Some {| Path := path |};
     Header := {[ "User-Agent" := ["curl/8.5.0"] ]} |}.

Definition metricsIgnored : singlePortProxy :=
  {| appPort := 8080; ignoredPaths := {[ "/metrics" ]} |}.

(** A proxy whose ignored paths hold the empty string. *)
Definition emptyIgnored : singlePortProxy :=
  {| appPort := 8080; ignoredPaths := {[ "" ]} |}.

End proxy.

(* ===================================================================== *)
(** * Part III: the activator's host index ([updateIndex])               *)
(* ===================================================================== *)

Module activator.

(** [appKind]; [appKindUnset] is the zero value of a declared variable. *)
Inductive appKind := appKindUnset | appKindDeployment | appKindStatefulSet.

#[global] Instance appKind_eq_dec : EqDecision appKind.
Proof. solve_decision. Defined.

(** What [updateIndex] uses and this file of the package does not define:
    [url.Parse] of the standard library (which fails on some strings) and
    the package's [getKey]. *)
Class Env := {
  URL : Type;
  url_Parse : string -> option URL;
  getKey : string -> appKind -> string -> string;
}.

(** The fields of [corev1.Service] the index reads ([svc.Spec.Ports] is
    [svc_Spec_Ports], and so on). *)
Record ServicePort := {
  port_Name : string;
  port_Port : Z;
  port_NodePort : Z;
}.

Record LoadBalancerIngress := { ingress_IP : string }.

Record Service := {
  svc_Name : string;
  svc_Namespace : string;
  svc_Annotations : gmap string string;
  svc_Spec_Ports : list ServicePort;
  svc_Spec_ClusterIP : string;
  svc_Status_LoadBalancer_Ingress : list LoadBalancerIngress;
}.

(** A Deployment or StatefulSet; its [Annotations] map may be nil. *)
Record Workload := { wl_Annotations : option (gmap string string) }.

(** Lines written with [glog.Errorf]. *)
Inductive LogEntry :=
  | ErrInvalidAppKind (svcName svcNamespace depKind dependency : string)
  | ErrParsingTargetURL (svcName svcNamespace : string).

Definition cleanAnnotationValue (rawValue : string) : string :=
  let value := strings.TrimSpace rawValue in
  let value := strings.TrimLeft value strings.quote in
  let value := strings.TrimRight value strings.quote in
  value.

(** Cleaning as the specification words it: white space is trimmed, then a
    single leading and a single trailing quote are stripped. *)
Definition cleanSingleQuotes (rawValue : string) : string :=
  strings.TrimSuffix
    (strings.TrimPrefix (strings.TrimSpace rawValue) strings.quote)
    strings.quote.

(** [n] single quotes. *)
Fixpoint quotes (n : nat) : string :=
  match n with
  | O => ""
  | S n' => String strings.quote (quotes n')
  end.

(** [^osiris\.dm\.gg/<base>(?:-\d+)?$]: the annotation key is the base name,
    or the base name followed by a dash and one or more decimal digits. *)
Definition isDigit (a : ascii) : bool :=
  (48 <=? strings.byte a)%N && (strings.byte a <=? 57)%N.

Fixpoint allDigits (s : string) : bool :=
  match s with
  | "" => true
  | String a r => isDigit a && allDigits r
  end.

Fixpoint stripPrefix (prefix s : string) : option string :=
  match prefix, s with
  | "", _ => Some s
  | String p prefix', String a s' =>
    if decide (a = p) then stripPrefix prefix' s' else None
  | String _ _, "" => None
  end.

Definition matchNumbered (base key : string) : bool :=
  match stripPrefix base key with
  | Some "" => true
  | Some (String "-" (String d ds)) => isDigit d && allDigits ds
  | _ => false
  end.

Definition loadBalancerHostnameAnnotationRegex_MatchString : string -> bool :=
  matchNumbered "osiris.dm.gg/loadBalancerHostname".

Definition ingressHostnameAnnotationRegex_MatchString : string -> bool :=
  matchNumbered "osiris.dm.gg/ingressHostname".

(** [fmt.Sprintf("%s:%d", host, port)]. *)
Definition hostPort (host : string) (port : Z) : string :=
  host +:+ ":" +:+ fmt.Sprintf_d port.

Definition svcDNSNames (svc : Service) : list string :=
  [ svc_Name svc +:+ "." +:+ svc_Namespace svc;
    svc_Name svc +:+ "." +:+ svc_Namespace svc +:+ ".svc";
    svc_Name svc +:+ "." +:+ svc_Namespace svc +:+ ".svc.cluster";
    svc_Name svc +:+ "." +:+ svc_Namespace svc +:+ ".svc.cluster.local" ].

(** The loop over the ports that looks for one named "http" and, until it
    finds one, for port 80. *)
Fixpoint findHTTPPort (ports : list ServicePort) (foundPort80 : bool)
  : string * bool :=
  match ports with
  | [] => ("", foundPort80)
  | port :: ports' =>
    if decide (port_Name port = "http")
    then (fmt.Sprintf_d (port_Port port), foundPort80)
    else findHTTPPort ports' (foundPort80 || (port_Port port =? 80))
  end.

Definition ingressDefaultPortOf (svc : Service) : string :=
  match svc_Annotations svc !! "osiris.dm.gg/ingressDefaultPort" with
  | Some ingressDefaultPort => ingressDefaultPort
  | None =>
    match svc_Spec_Ports svc with
    | [port] => fmt.Sprintf_d (port_Port port)
    | ports =>
      let '(ingressDefaultPort, foundPort80) := findHTTPPort ports false in
      if decide (ingressDefaultPort = "") then
        (if foundPort80 then "80" else ingressDefaultPort)
      else ingressDefaultPort
    end
  end.

(** The non-empty IPs of the load-balancer ingresses. *)
Definition ingressIPs (svc : Service) : list string :=
  filter (fun ip => ip ≠ "")
         (ingress_IP <$> svc_Status_LoadBalancer_Ingress svc).

(** The cleaned values of the annotations whose key the regular expression
    matches, in the order the range loop meets them. *)
Definition annotatedHostnames (matchString : string -> bool) (svc : Service)
  : list string :=
  (fun kv => cleanAnnotationValue kv.2)
    <$> filter (fun kv => matchString kv.1 = true)
               (map_to_list (svc_Annotations svc)).

(** The keys [updateIndex] assigns for one port of a service, in the order
    of its assignments (every one of them assigns the same [app]). *)
Definition portHosts (nodeAddresses : gset string) (svc : Service)
    (ingressDefaultPort : string) (port : ServicePort) : list string :=
  (if decide (port_Port port = 80) then
     svcDNSNames svc
     ++ [svc_Spec_ClusterIP svc]
     ++ ingressIPs svc
     ++ annotatedHostnames loadBalancerHostnameAnnotationRegex_MatchString svc
   else [])
  ++ (if decide (fmt.Sprintf_d (port_Port port) = ingressDefaultPort) then
        annotatedHostnames ingressHostnameAnnotationRegex_MatchString svc
      else [])
  ++ ((fun h => hostPort h (port_Port port)) <$> svcDNSNames svc)
  ++ [hostPort (svc_Spec_ClusterIP svc) (port_Port port)]
  ++ ((fun h => hostPort h (port_Port port)) <$> ingressIPs svc)
  ++ (if decide (port_NodePort port ≠ 0) then
        (fun nodeAddress => hostPort nodeAddress (port_NodePort port))
          <$> elements nodeAddresses
      else [])
  ++ ((fun h => hostPort h (port_Port port))
        <$> annotatedHostnames loadBalancerHostnameAnnotationRegex_MatchString svc).

(** The hosts every port is registered under with its number. *)
Definition addressed (svc : Service) : list string :=
  svcDNSNames svc ++ [svc_Spec_ClusterIP svc] ++ ingressIPs svc
  ++ annotatedHostnames loadBalancerHostnameAnnotationRegex_MatchString svc.

(** The entry [<kind>:<namespace>/<name>] of a dependencies annotation. *)
Definition dependencyEntry (kind namespace name : string) : string :=
  kind +:+ ":" +:+ namespace +:+ "/" +:+ name.

(** A declared dependency: its kind, namespace and name. *)
Definition declaredEntry (d : string * string * string) : string :=
  dependencyEntry d.1.1 d.1.2 d.2.

(** The kind has no colon and the namespace no slash, so that the entry is
    cut where it was put together. *)
Definition separable (d : string * string * string) : Prop :=
  hasByte ":" d.1.1 = false /\ hasByte "/" d.1.2 = false.

(** The entries of an annotation value that are not empty. *)
Definition nonEmptyEntries (value : string) : list string :=
  filter (fun entry => entry <> "") (strings.Split value ",").

(** The kind a word names, read without regard to case. *)
Definition appKindOfWord (kind : string) : option appKind :=
  if decide (strings.ToLower kind = "deployment") then Some appKindDeployment
  else if decide (strings.ToLower kind = "statefulset") then Some appKindStatefulSet
  else None.

Section index.
Context `{Env}.

(** [app]; the reverse proxy handler is built from [TargetURL] and carries
    nothing else.  A dependency leaves [TargetURL] nil. *)
#[warnings="-register-all"]
Inductive app := mkApp {
  Namespace : string;
  ServiceName : string;
  Name : string;
  Kind : appKind;
  Dependencies : list app;
  TargetURL : option URL;
}.

(** [activator]: [services] lists the services in the order the range loop
    of [updateIndex] visits them. *)
Record activator := {
  services : list Service;
  deployments : gmap string Workload;
  statefulSets : gmap string Workload;
  nodeAddresses : gset string;
  appsByHost : gmap string app;
}.

(** [appsByHost[host] = app] for each host of the list, in order. *)
Definition assignAll (hosts : list string) (a : app)
    (appsByHost : gmap string app) : gmap string app :=
  foldl (fun m host => <[host := a]> m) appsByHost hosts.

(** The dependencies annotation of the workload a service names: empty when
    the workload is unknown or has no annotations. *)
Definition dependenciesOf (workload : option Workload) : string :=
  match workload with
  | Some w =>
    match wl_Annotations w with
    | Some annotations =>
      cleanAnnotationValue (default "" (annotations !! "osiris.dm.gg/dependencies"))
    | None => ""
    end
  | None => ""
  end.

(** The first lines of the loop body: [name], [kind] and
    [dependenciesAnnotationValue]. *)
Definition serviceBinding (a : activator) (svc : Service)
  : string * appKind * string :=
  match svc_Annotations svc !! "osiris.dm.gg/deployment" with
  | Some deploymentName =>
    let name := cleanAnnotationValue deploymentName in
    let kind := appKindDeployment in
    (name, kind,
     dependenciesOf (deployments a !! getKey (svc_Namespace svc) kind name))
  | None =>
    match svc_Annotations svc !! "osiris.dm.gg/statefulset" with
    | Some statefulSetName =>
      let name := cleanAnnotationValue statefulSetName in
      let kind := appKindStatefulSet in
      (name, kind,
       dependenciesOf (statefulSets a !! getKey (svc_Namespace svc) kind name))
    | None => ("", appKindUnset, "")
    end
  end.

(** One round of the loop over the entries of the dependencies annotation. *)
Definition parseDependency (svc : Service) (dependency : string)
    (st : list app * list LogEntry) : result (list app * list LogEntry) :=
  let '(dependencies, log) := st in
  if decide (String.length dependency = 0%nat) then Ok st
  else
    let elems := strings.SplitN2 dependency ":" in
    depKind ← index elems 0;
    let lower := strings.ToLower depKind in
    if decide (lower = "deployment" \/ lower = "statefulset") then
      let depAppKind :=
        if decide (lower = "deployment") then appKindDeployment
        else appKindStatefulSet in
      rest ← index elems 1;
      let elems := strings.SplitN2 rest "/" in
      depNamespace ← index elems 0;
      depName ← index elems 1;
      Ok (dependencies
            ++ [mkApp depNamespace depName depName depAppKind [] None],
          log)
    else
      Ok (dependencies,
          log ++ [ErrInvalidAppKind (svc_Name svc) (svc_Namespace svc)
                                    depKind dependency]).

Definition parseDependencies (svc : Service)
    (dependenciesAnnotationValue : string) (log : list LogEntry)
  : result (list app * list LogEntry) :=
  forM (parseDependency svc) (strings.Split dependenciesAnnotationValue ",")
       ([], log).

(** The body of the loop over the ports of a service. *)
Definition indexPort (a : activator) (svc : Service) (name : string)
    (kind : appKind) (dependencies : list app) (ingressDefaultPort : string)
    (st : gmap string app * list LogEntry) (port : ServicePort)
  : gmap string app * list LogEntry :=
  let '(appsByHost, log) := st in
  match url_Parse ("http://" +:+ hostPort (svc_Spec_ClusterIP svc) (port_Port port)) with
  | None =>
    (appsByHost, log ++ [ErrParsingTargetURL (svc_Name svc) (svc_Namespace svc)])
  | Some targetURL =>
    let app := mkApp (svc_Namespace svc) (svc_Name svc) name kind
                     dependencies (Some targetURL) in
    (assignAll (portHosts (nodeAddresses a) svc ingressDefaultPort port)
               app appsByHost,
     log)
  end.

(** The body of the loop over the services. *)
Definition indexService (a : activator) (svc : Service)
    (st : gmap string app * list LogEntry)
  : result (gmap string app * list LogEntry) :=
  let '(name, kind, dependenciesAnnotationValue) := serviceBinding a svc in
  if decide (String.length name = 0%nat) then Ok st
  else
    '(dependencies, log) ←
      parseDependencies svc dependenciesAnnotationValue st.2;
    Ok (foldl (indexPort a svc name kind dependencies (ingressDefaultPortOf svc))
              (st.1, log) (svc_Spec_Ports svc)).

(** [updateIndex]: the activator with its new index, and the lines logged;
    a panic publishes nothing. *)
Definition updateIndex (a : activator) : result (activator * list LogEntry) :=
  '(appsByHost, log) ← forM (indexService a) (services a) (∅, []);
  Ok ({| services := services a;
         deployments := deployments a;
         statefulSets := statefulSets a;
         nodeAddresses := nodeAddresses a;
         appsByHost := appsByHost |},
      log).

(** [host] is a key of the index. *)
Definition registered (a : activator) (host : string) : Prop := is_Some (appsByHost a !! host).

(** [a] with other services to loop over. *)
Definition withServices (a : activator) (svcs : list Service) : activator :=
  {| services := svcs;
     deployments := deployments a;
     statefulSets := statefulSets a;
     nodeAddresses := nodeAddresses a;
     appsByHost := appsByHost a |}.

(** [x] is the app [updateIndex] builds for [port] of [svc], and [h] is one
    of the keys it assigns it to. *)
Definition assignedFor (a : activator) (svc : Service) (port : ServicePort)
    (h : string) (x : app) : Prop :=
  exists name kind value dependencies log log' targetURL,
    serviceBinding a svc = (name, kind, value)
    /\ name <> ""
    /\ parseDependencies svc value log = Ok (dependencies, log')
    /\ url_Parse ("http://" +:+ hostPort (svc_Spec_ClusterIP svc) (port_Port port))
       = Some targetURL
    /\ h ∈ portHosts (nodeAddresses a) svc (ingressDefaultPortOf svc) port
    /\ x = mkApp (svc_Namespace svc) (svc_Name svc) name kind dependencies
                 (Some targetURL).

(** Every entry of [m] was assigned for a port of a service of [svcs]. *)
Definition justified (a : activator) (svcs : list Service)
    (m : gmap string app) : Prop :=
  forall h x, m !! h = Some x ->
    exists svc port,
      svc ∈ svcs /\ port ∈ svc_Spec_Ports svc /\ assignedFor a svc port h x.

(** The app of a declared dependency whose kind is deployment or
    statefulset, and the line logged for one of another kind. *)
Definition declaredApp (d : string * string * string) : option app :=
  (fun kind => mkApp d.1.2 d.2 d.2 kind [] None) <$> appKindOfWord d.1.1.

Definition declaredError (svc : Service) (d : string * string * string)
  : option LogEntry :=
  match appKindOfWord d.1.1 with
  | Some _ => None
  | None =>
    Some (ErrInvalidAppKind (svc_Name svc) (svc_Namespace svc) d.1.1
                            (declaredEntry d))
  end.

End index.

End activator.

Module examples.

Import activator.

(** An environment in which every target URL parses. *)
Definition plainEnv : Env :=
  {| URL := string;
     url_Parse := Some;
     getKey := fun namespace kind name =>
       (match kind with
        | appKindDeployment => "Deployment"
        | appKindStatefulSet => "StatefulSet"
        | appKindUnset => ""
        end) +:+ ":" +:+ namespace +:+ "/" +:+ name |}.

(** Service [web] of namespace [default], bound to deployment [web]: one
    port, 8080, which is therefore the ingress default port. *)
Definition webService : Service :=
  {| svc_Name := "web";
     svc_Namespace := "default";
     svc_Annotations :=
       {[ "osiris.dm.gg/deployment" := "web";
          "osiris.dm.gg/ingressHostname" := "example.com";
          "osiris.dm.gg/loadBalancerHostname" := "lb.example.com" ]};
     svc_Spec_Ports :=
       [ {| port_Name := "web"; port_Port := 8080; port_NodePort := 30080 |} ];
     svc_Spec_ClusterIP := "10.0.0.7";
     svc_Status_LoadBalancer_Ingress := [ {| ingress_IP := "192.0.2.1" |} ] |}.

(** A service without a workload annotation. *)
Definition plainService : Service :=
  {| svc_Name := "plain";
     svc_Namespace := "default";
     svc_Annotations := ∅;
     svc_Spec_Ports :=
       [ {| port_Name := "http"; port_Port := 80; port_NodePort := 0 |} ];
     svc_Spec_ClusterIP := "10.0.0.9";
     svc_Status_LoadBalancer_Ingress := [] |}.

(** The deployment [web] with a dependencies annotation. *)
Definition webDeployment (dependencies : string) : Workload :=
  {| wl_Annotations := Some {[ "osiris.dm.gg/dependencies" := dependencies ]} |}.

Definition cluster (dependencies : string) (svcs : list Service)
  : @activator plainEnv :=
  {| services := svcs;
     deployments := {[ "Deployment:default/web" := webDeployment dependencies ]};
     statefulSets := ∅;
     nodeAddresses := {[ "node-1" ]};
     appsByHost := ∅ |}.

(** A service bound to deployment [web] that claims the host
    [shared.example.com] for its port 80. *)
Definition claimant (name clusterIP : string) : Service :=
  {| svc_Name := name;
     svc_Namespace := "default";
     svc_Annotations :=
       {[ "osiris.dm.gg/deployment" := "web";
          "osiris.dm.gg/ingressHostname" := "shared.example.com" ]};
     svc_Spec_Ports :=
       [ {| port_Name := "http"; port_Port := 80; port_NodePort := 0 |} ];
     svc_Spec_ClusterIP := clusterIP;
     svc_Status_LoadBalancer_Ingress := [] |}.

End examples.

(* ===================================================================== *)
(** * Part IV: the zeroscaler's metrics collector                        *)
(* ===================================================================== *)

Module zeroscaler.

(** [k8s.PatchOperation]. *)
Record PatchOperation := {
  Op : string;
  Path : string;
  Value : Z;
}.

(** The two typed clients of [kubeClient.AppsV1()]. *)
Inductive Resource := Deployments | StatefulSets.

#[global] Instance Resource_eq_dec : EqDecision Resource.
Proof. solve_decision. Defined.

(** A Deployment or StatefulSet as [Get] returns it; [Annotations] may be
    nil. *)
Record Workload := { Annotations : option (gmap string string) }.

(** What the collector does to the outside world, in order: calls of the
    API server (with the error they returned, if any) and lines written
    with glog. *)
Inductive Event :=
  | InfoScaleStarting (kind name namespace : string)
  | PatchCall (resource : Resource) (namespace name : string)
              (patches : list PatchOperation) (err : option string)
  | ErrorScaling (kind name namespace err : string)
  | InfoScaled (kind name namespace : string)
  | GetCall (resource : Resource) (namespace name : string)
  | ErrorRetrieving (resource : Resource) (name namespace err : string).

(** [kubernetes.Interface], as far as the collector calls it.  [Patch]
    returns an error or nil, and its answer may depend on everything that
    happened before; [Get] returns an error or the workload as the API
    server stores it. *)
Record KubeClient := {
  Patch : list Event -> Resource -> string -> string -> list PatchOperation
          -> option string;
  Get : Resource -> string -> string -> string + Workload;
}.

Record metricsCollectorConfig := {
  appKind : string;
  appName : string;
  appNamespace : string;
}.

(** [metricsCollector]; [appPods] is read through the snapshot each tick
    takes (see [Tick]). *)
Record metricsCollector := {
  config : metricsCollectorConfig;
  kubeClient : KubeClient;
}.

Definition cleanAnnotationValue (rawValue : string) : string :=
  let value := strings.TrimSpace rawValue in
  let value := strings.TrimLeft value strings.quote in
  let value := strings.TrimRight value strings.quote in
  value.

(** How a function that writes events ends: it returns, or it panics. *)
Inductive Outcome := Returned | Panicked (msg : string).

Definition resourceOfKind (kind : string) : option Resource :=
  let lower := strings.ToLower kind in
  if decide (lower = "deployment") then Some Deployments
  else if decide (lower = "statefulset") then Some StatefulSets
  else None.

(** The package-level [scaleToZero]: the events so far, extended. *)
Definition scaleToZero (kubeClient : KubeClient) (kind namespace name : string)
    (trace : list Event) : list Event :=
  let trace := trace ++ [InfoScaleStarting kind name namespace] in
  let patches := [{| Op := "replace"; Path := "/spec/replicas"; Value := 0 |}] in
  let '(trace, err) :=
    match resourceOfKind kind with
    | Some resource =>
      let err := Patch kubeClient trace resource namespace name patches in
      (trace ++ [PatchCall resource namespace name patches err], err)
    | None => (trace, Some ("unknown kind '" +:+ kind +:+ "'"))
    end in
  match err with
  | Some e => trace ++ [ErrorScaling kind name namespace e]
  | None => trace ++ [InfoScaled kind name namespace]
  end.

(** One round of the loop over the entries of the dependencies annotation
    in the method [scaleToZero]. *)
Definition scaleDependency (kubeClient : KubeClient) (dependency : string)
    (trace : list Event) : list Event * Outcome :=
  if decide (String.length dependency = 0%nat) then (trace, Returned)
  else
    let elems := strings.SplitN2 dependency ":" in
    match elems !! 0%nat, elems !! 1%nat with
    | Some depKind, Some rest =>
      let elems := strings.SplitN2 rest "/" in
      match elems !! 0%nat, elems !! 1%nat with
      | Some depNamespace, Some depName =>
        (scaleToZero kubeClient depKind depNamespace depName trace, Returned)
      | _, _ => (trace, Panicked "index out of range")
      end
    | _, _ => (trace, Panicked "index out of range")
    end.

Fixpoint scaleDependencies (kubeClient : KubeClient) (dependencies : list string)
    (trace : list Event) : list Event * Outcome :=
  match dependencies with
  | [] => (trace, Returned)
  | dependency :: dependencies' =>
    match scaleDependency kubeClient dependency trace with
    | (trace', Returned) => scaleDependencies kubeClient dependencies' trace'
    | stopped => stopped
    end
  end.

Definition dependenciesOf (w : Workload) : string :=
  match Annotations w with
  | Some annotations =>
    cleanAnnotationValue (default "" (annotations !! "osiris.dm.gg/dependencies"))
  | None => ""
  end.

(** The method [(m *metricsCollector) scaleToZero]. *)
Definition metricsCollector_scaleToZero (m : metricsCollector)
    (trace : list Event) : list Event * Outcome :=
  let cfg := config m in
  (* scale the main app to zero first *)
  let trace :=
    scaleToZero (kubeClient m) (appKind cfg) (appNamespace cfg) (appName cfg)
                trace in
  (* and then the dependencies - if any *)
  match resourceOfKind (appKind cfg) with
  | Some resource =>
    let got := Get (kubeClient m) resource (appNamespace cfg) (appName cfg) in
    let trace := trace ++ [GetCall resource (appNamespace cfg) (appName cfg)] in
    match got with
    | inl err =>
      (trace ++ [ErrorRetrieving resource (appName cfg) (appNamespace cfg) err],
       Returned)
    | inr workload =>
      scaleDependencies (kubeClient m)
                        (strings.Split (dependenciesOf workload) ",") trace
    end
  | None => scaleDependencies (kubeClient m) (strings.Split "" ",") trace
  end.

(** The patches a trace holds, in order: resource, namespace, name. *)
Definition patchTarget (e : Event) : option (Resource * string * string) :=
  match e with
  | PatchCall resource namespace name _ _ => Some (resource, namespace, name)
  | _ => None
  end.

Definition patchTargets (trace : list Event) : list (Resource * string * string) :=
  omap patchTarget trace.

(** ** The collector loop *)

(** [proxyRequestCount], the result of a successful scrape. *)
Record proxyRequestCount := {
  ProxyID : string;
  RequestCount : Z;
}.

(** The variables [collectMetrics] declares before its loop. *)
Record LoopState := {
  requestCountsByProxy : gmap string Z;
  lastTotalRequestCount : Z;
}.

Definition initialLoopState : LoopState :=
  {| requestCountsByProxy := ∅; lastTotalRequestCount := 0 |}.

(** What one tick of the ticker meets: the pods of [appPods] when the tick
    starts (by name) with what [Scrape] returns for each (nil is [None]),
    in the order the scraping goroutines finish; whether the three-second
    timer has fired and whether the context is done when the [select] is
    reached; and the choice [select] makes when both are ready. *)
Record Tick := {
  scrapes : list (string * option proxyRequestCount);
  timerFired : bool;
  ctxDone : bool;
  selectsTimer : bool;
}.

Inductive SelectCase := CaseTimer | CaseCtxDone | CaseDefault.

Definition selectCase (t : Tick) : SelectCase :=
  match timerFired t, ctxDone t with
  | true, true => if selectsTimer t then CaseTimer else CaseCtxDone
  | true, false => CaseTimer
  | false, true => CaseCtxDone
  | false, false => CaseDefault
  end.

(** The body of one scraping goroutine, on the two variables it shares
    with the loop. *)
Definition recordScrape (st : bool * gmap string Z)
    (scrape : string * option proxyRequestCount) : bool * gmap string Z :=
  let '(mustNotDecide, counts) := st in
  match scrape.2 with
  | None => (true, counts)
  | Some prc => (mustNotDecide, <[ProxyID prc := RequestCount prc]> counts)
  end.

(** [for _, requestCount := range requestCountsByProxy
       { totalRequestCount += requestCount }]. *)
Definition sumCounts (counts : gmap string Z) : Z :=
  foldr (fun kv total => wrap64 (total + kv.2)) 0 (map_to_list counts).

(** What a tick makes of the loop: its variables after the tick, or [None]
    when [collectMetrics] returned; the total the tick computed; the events,
    extended; and how the tick ended. *)
Record TickResult := {
  nextState : option LoopState;
  totalRequestCount : Z;
  events : list Event;
  outcome : Outcome;
}.

(** The [case <-ticker.C] branch of the loop of [collectMetrics]. *)
Definition tick (m : metricsCollector) (st : LoopState) (t : Tick)
    (trace : list Event) : TickResult :=
  let '(mustNotDecide, counts) :=
    foldl recordScrape (false, requestCountsByProxy st) (scrapes t) in
  let total := sumCounts counts in
  match selectCase t with
  | CaseCtxDone =>
    {| nextState := None; totalRequestCount := total;
       events := trace; outcome := Returned |}
  | chosen =>
    let mustNotDecide :=
      match chosen with CaseTimer => true | _ => mustNotDecide end in
    let '(trace', out) :=
      if negb mustNotDecide && bool_decide (total = lastTotalRequestCount st)
      then metricsCollector_scaleToZero m trace
      else (trace, Returned) in
    match out with
    | Returned =>
      {| nextState := Some {| requestCountsByProxy := counts;
                              lastTotalRequestCount := total |};
         totalRequestCount := total; events := trace'; outcome := Returned |}
    | Panicked msg =>
      {| nextState := None; totalRequestCount := total;
         events := trace'; outcome := Panicked msg |}
    end
  end.

(** [collectMetrics] over the ticks it meets, until it returns (the context
    is done) or panics. *)
Fixpoint collectMetricsFrom (m : metricsCollector) (st : LoopState)
    (ticks : list Tick) (trace : list Event) : list TickResult :=
  match ticks with
  | [] => []
  | t :: ticks' =>
    let r := tick m st t trace in
    r :: match nextState r with
         | Some st' => collectMetricsFrom m st' ticks' (events r)
         | None => []
         end
  end.

Definition collectMetrics (m : metricsCollector) (ticks : list Tick)
  : list TickResult :=
  collectMetricsFrom m initialLoopState ticks [].

(** The sum of the counts a tick's successful scrapes returned, as the
    specification words the total: every scrape of the tick counts, nothing
    else does. *)
Definition sumOfScrapes (t : Tick) : Z :=
  foldr (fun s total =>
           match s.2 with
           | Some prc => total + RequestCount prc
           | None => total
           end) 0 (scrapes t).

(** ** Vocabulary of the properties *)

(** The patch of a scale to zero. *)
Definition replaceReplicasWithZero : list PatchOperation :=
  [{| Op := "replace"; Path := "/spec/replicas"; Value := 0 |}].

(** Every patch of the events replaces [/spec/replicas] with 0, and every
    patch that failed is followed at once by the line that logs the
    failure. *)
Fixpoint wellFormed (evs : list Event) : Prop :=
  match evs with
  | [] => True
  | PatchCall _ namespace name patches err :: rest =>
    patches = replaceReplicasWithZero
    /\ match err with
       | Some e => exists kind rest', rest = ErrorScaling kind name namespace e :: rest'
       | None => True
       end
    /\ wellFormed rest
  | _ :: rest => wellFormed rest
  end.

(** Two runs of a function that writes events agree on how they end and on
    the patches they add, and what each adds is well formed. *)
Definition agree (t1 t2 : list Event) (r1 r2 : list Event * Outcome) : Prop :=
  exists new1 new2 out,
    r1 = (t1 ++ new1, out) /\ r2 = (t2 ++ new2, out)
    /\ wellFormed new1 /\ wellFormed new2
    /\ patchTargets new1 = patchTargets new2.

(** The counts by proxy once the scrapes of a tick are recorded. *)
Definition recorded (st : LoopState) (t : Tick) : gmap string Z :=
  (foldl recordScrape (false, requestCountsByProxy st) (scrapes t)).2.

(** The count the last successful scrape of the list returned for [id]. *)
Definition lastCount (id : string)
    (scrapes : list (string * option proxyRequestCount)) : option Z :=
  last (omap (fun s : string * option proxyRequestCount =>
                prc ← s.2;
                if decide (ProxyID prc = id) then Some (RequestCount prc)
                else None)
             scrapes).

(** The ways through the body of [tick]. *)
Ltac tick_cases m trace :=
  repeat match goal with
    | |- context [selectCase ?t] => destruct (selectCase t); simpl
    | |- context [negb ?flag && ?b] => destruct (negb flag && b); simpl
    | |- context [metricsCollector_scaleToZero m trace] =>
      destruct (metricsCollector_scaleToZero m trace) as [? []]; simpl
    end.

(** ** The pods of the application ([appPods]) *)

(** [corev1.Pod], of which the collector reads the name (the key of
    [appPods]); the IP is what distinguishes two pods of one name here. *)
Record Pod := {
  pod_Name : string;
  pod_PodIP : string;
}.

(** The [interface{}] an informer hands to its handlers: a pointer to a
    [corev1.Pod], or a value of another dynamic type (such as the
    [cache.DeletedFinalStateUnknown] a delete handler receives when the
    informer missed the deletion). *)
Inductive Object :=
  | PodObject (pod : Pod)
  | OtherObject.

(** The type assertion of [obj] to a pointer to [corev1.Pod]: without the
    ok form it panics on any other dynamic type. *)
Definition assertPod (obj : Object) : result Pod :=
  match obj with
  | PodObject pod => Ok pod
  | OtherObject => Panic "interface conversion: interface {} is not *v1.Pod"
  end.

(** [syncAppPod] and [syncDeletedAppPod], on the map they lock. *)
Definition syncAppPod (obj : Object) (appPods : gmap string Pod)
  : result (gmap string Pod) :=
  pod ← assertPod obj;
  Ok (<[pod_Name pod := pod]> appPods).

Definition syncDeletedAppPod (obj : Object) (appPods : gmap string Pod)
  : result (gmap string Pod) :=
  pod ← assertPod obj;
  Ok (delete (pod_Name pod) appPods).

(** The calls of the informer, and the handlers [newMetricsCollector]
    registers for them: [AddFunc] is [syncAppPod], [UpdateFunc] is
    [syncAppPod] of the new object, [DeleteFunc] is [syncDeletedAppPod]. *)
Inductive InformerEvent :=
  | OnAdd (obj : Object)
  | OnUpdate (oldObj newObj : Object)
  | OnDelete (obj : Object).

Definition handleEvent (ev : InformerEvent) (appPods : gmap string Pod)
  : result (gmap string Pod) :=
  match ev with
  | OnAdd obj => syncAppPod obj appPods
  | OnUpdate _ newObj => syncAppPod newObj appPods
  | OnDelete obj => syncDeletedAppPod obj appPods
  end.

(** [appPods] after the handlers have run for the events, in order; the map
    is empty when [newMetricsCollector] returns. *)
Definition handleEvents (evs : list InformerEvent) (appPods : gmap string Pod)
  : result (gmap string Pod) :=
  forM handleEvent evs appPods.

(** What an event says about the pod named [name]: [Some (Some pod)] when it
    stores [pod] under that name, [Some None] when it deletes the name,
    [None] when it is about another name (or carries no pod). *)
Definition verdictFor (name : string) (ev : InformerEvent) : option (option Pod) :=
  match ev with
  | OnAdd (PodObject pod) | OnUpdate _ (PodObject pod) =>
    if decide (pod_Name pod = name) then Some (Some pod) else None
  | OnDelete (PodObject pod) =>
    if decide (pod_Name pod = name) then Some None else None
  | _ => None
  end.

(** Every event carries a pod where its handler asserts one. *)
Definition carriesPod (ev : InformerEvent) : Prop :=
  match ev with
  | OnAdd obj | OnUpdate _ obj | OnDelete obj => obj <> OtherObject
  end.

(** ** More vocabulary of the properties *)

(** A dependency entry the loop of the method [scaleToZero] cannot index:
    it is not empty and has no colon, or nothing that follows its first
    colon has a slash. *)
Definition lacksSeparator (dependency : string) : Prop :=
  dependency <> ""
  /\ (hasByte ":" dependency = false
      \/ exists kind rest,
           dependency = kind +:+ ":" +:+ rest
           /\ hasByte ":" kind = false /\ hasByte "/" rest = false).


(** The total of the tick before tick [i] of a run, when there is one. *)
Definition previousTotal (results : list TickResult) (i : nat) : option Z :=
  match i with
  | O => None
  | S j => totalRequestCount <$> results !! j
  end.

(** The events before tick [i] of a run of [collectMetrics]. *)
Definition eventsBefore (results : list TickResult) (i : nat) : list Event :=
  match i with
  | O => []
  | S j => default [] (events <$> results !! j)
  end.

End zeroscaler.

Module collector_examples.

Import zeroscaler.

(** Deployment [app] of namespace [ns], which declares the dependency
    [deployment:ns/db]. *)
Definition appConfig : metricsCollectorConfig :=
  {| appKind := "Deployment"; appName := "app"; appNamespace := "ns" |}.

Definition appWorkload : Workload :=
  {| Annotations := Some {[ "osiris.dm.gg/dependencies" := "deployment:ns/db" ]} |}.

(** An API server that accepts every patch, and one that refuses every
    patch. *)
Definition accepting : KubeClient :=
  {| Patch := fun _ _ _ _ _ => None;
     Get := fun _ _ _ => inr appWorkload |}.

Definition refusing : KubeClient :=
  {| Patch := fun _ _ _ _ _ => Some "forbidden";
     Get := fun _ _ _ => inr appWorkload |}.

Definition collector (c : KubeClient) : metricsCollector :=
  {| config := appConfig; kubeClient := c |}.

Definition scrapeOf (pod id : string) (n : Z) : string * option proxyRequestCount :=
  (pod, Some {| ProxyID := id; RequestCount := n |}).

(** The loop after a tick on which proxies A and B reported 17 and 5, and a
    tick on which they report the same. *)
Definition seenBefore : LoopState :=
  {| requestCountsByProxy := {[ "A" := 17; "B" := 5 ]};
     lastTotalRequestCount := 22 |}.

(** A tick on which every scrape answers in time. *)
Definition quiet (scrapes : list (string * option proxyRequestCount)) : Tick :=
  {| scrapes := scrapes; timerFired := false; ctxDone := false;
     selectsTimer := false |}.

Definition bothPods : Tick :=
  quiet [scrapeOf "pod-a" "A" 17; scrapeOf "pod-b" "B" 5].

(** The pod of proxy A is replaced by a pod that runs proxy B. *)
Definition beforeRestart : Tick := quiet [scrapeOf "pod-0" "A" 5].
Definition afterRestart : Tick := quiet [scrapeOf "pod-0" "B" 3].

(** An API server that accepts every patch and cannot retrieve the
    workload, and one on which the workload declares the dependency [db],
    without kind and namespace. *)
Definition forgetful : KubeClient :=
  {| Patch := fun _ _ _ _ _ => None;
     Get := fun _ _ _ => inl "not found" |}.

Definition sloppy : KubeClient :=
  {| Patch := fun _ _ _ _ _ => None;
     Get := fun _ _ _ =>
       inr {| Annotations := Some {[ "osiris.dm.gg/dependencies" := "db" ]} |} |}.

End collector_examples.

(* ===================================================================== *)
(** * Part IV-b: the proxy injector's admission handler                  *)
(* ===================================================================== *)

Module injector.

(** [admissionsv1.AdmissionRequest], of which the handler reads [UID] and
    [Kind.Kind]. *)
Record AdmissionRequest := {
  UID : string;
  Kind_Kind : string;
}.

Inductive PatchType := PatchTypeJSONPatch.

(** [metav1.Status], of which the handler sets [Message]. *)
Record Status := { Message : string }.

(** [admissionsv1.AdmissionResponse]; [Patch] is nil unless set. *)
Record AdmissionResponse := {
  response_UID : string;
  Allowed : bool;
  Result : option Status;
  Patch : option string;
  PatchTypeOf : option PatchType;
}.

(** [admissionsv1.AdmissionReview]: [Kind] and [APIVersion] are its
    [TypeMeta]; [Request] and [Response] are pointers and may be nil. *)
Record AdmissionReview := {
  Kind : string;
  APIVersion : string;
  Request : option AdmissionRequest;
  Response : option AdmissionResponse;
}.

(** [http.Request]: what [ioutil.ReadAll(r.Body)] returns ([None] when it
    fails), and the headers. *)
Record HttpRequest := {
  Body : option string;
  Header : gmap string (list string);
}.

(** What the handler does to its [http.ResponseWriter], in order:
    [http.Error(w, msg, code)] and [w.Write(data)] with the error it
    returned. *)
Inductive Written :=
  | HttpError (msg : string) (code : Z)
  | Write (data : string) (err : option string).

Definition StatusBadRequest : Z := 400.
Definition StatusUnsupportedMediaType : Z := 415.
Definition StatusInternalServerError : Z := 500.

(** What the handler calls and this file does not define: the
    deserializer's [Decode] (the review it leaves in [ar], and its error),
    the injector's [getPodPatchOperations], [json.Marshal] of the patch
    operations and of the review (an error or the bytes), and the [Write]
    of the response writer (its error). *)
Class Env := {
  PatchOperation : Type;
  Decode : string -> AdmissionReview * option string;
  getPodPatchOperations : AdmissionReview -> list PatchOperation * option string;
  marshalPatchOps : list PatchOperation -> string + string;
  marshalReview : AdmissionReview -> string + string;
  writeResponse : string -> option string;
}.

(** [p.f] through a pointer [p]: a panic when [p] is nil. *)
Definition deref {A : Type} (p : option A) : result A :=
  match p with
  | Some x => Ok x
  | None => Panic "invalid memory address or nil pointer dereference"
  end.

Section handler.
Context `{Env}.

(** The response for a request that was reviewed without error. *)
Definition reviewed (uid : string) (patchOps : list PatchOperation)
  : AdmissionResponse :=
  if decide (length patchOps = 0%nat) then
    {| response_UID := uid; Allowed := true; Result := None;
       Patch := None; PatchTypeOf := None |}
  else
    match marshalPatchOps patchOps with
    | inl err =>
      {| response_UID := uid; Allowed := false;
         Result := Some {| Message := err |};
         Patch := None; PatchTypeOf := None |}
    | inr patchBytes =>
      {| response_UID := uid; Allowed := true; Result := None;
         Patch := Some patchBytes; PatchTypeOf := Some PatchTypeJSONPatch |}
    end.

(** The middle of [handleRequest]: from the decoding of the body to the
    [admissionResponse] the handler settles on. *)
Definition admissionResponseFor (body : string) : result AdmissionResponse :=
  let '(ar, decodeErr) := Decode body in
  '(patchOps, err) ←
    match decodeErr with
    | Some e => Ok ([], Some e)
    | None =>
      request ← deref (Request ar);
      if decide (Kind_Kind request = "Pod") then
        Ok (getPodPatchOperations ar)
      else
        Ok ([], Some ("Invalid kind for review: " +:+ Kind ar))
    end;
  request ← deref (Request ar);
  Ok match err with
     | Some e =>
       {| response_UID := UID request; Allowed := false;
          Result := Some {| Message := e |};
          Patch := None; PatchTypeOf := None |}
     | None => reviewed (UID request) patchOps
     end.

(** The end of [handleRequest]: the review is encoded and written; an
    encoding error is answered with [http.Error] and the write goes on. *)
Definition writeReview (admissionResponse : AdmissionResponse) : list Written :=
  let admissionReview :=
    {| Kind := "AdmissionReview";
       APIVersion := "admission.k8s.io/v1";
       Request := None;
       Response := Some admissionResponse |} in
  let '(resp, written) :=
    match marshalReview admissionReview with
    | inl e =>
      ("", [HttpError ("could not encode response: " +:+ e)
                      StatusInternalServerError])
    | inr resp => (resp, [])
    end in
  let werr := writeResponse resp in
  written
  ++ [Write resp werr]
  ++ match werr with
     | Some e =>
       [HttpError ("could not write response: " +:+ e)
                  StatusInternalServerError]
     | None => []
     end.

(** The method [handleRequest] of the injector. *)
Definition handleRequest (r : HttpRequest) : result (list Written) :=
  let body := default "" (Body r) in
  if decide (String.length body = 0%nat) then
    Ok [HttpError "empty body" StatusBadRequest]
  else
    let contentType := proxy.Header_Get (Header r) "Content-Type" in
    if decide (contentType <> "application/json") then
      Ok [HttpError "invalid Content-Type, expect `application/json`"
                    StatusUnsupportedMediaType]
    else
      admissionResponse ← admissionResponseFor body;
      Ok (writeReview admissionResponse).

End handler.

(** Settles the facts about a response that is given field by field. *)
Ltac settle_response :=
  simpl; repeat split; intros;
  repeat match goal with
    | H : _ /\ _ |- _ => destruct H
    | H : is_Some None |- _ => by destruct H
    | H : _ \/ _ |- _ => destruct H
    | H : exists _, _ |- _ => destruct H
    end;
  try done; eauto.

End injector.

Module injector_examples.

Import injector.

(** A deserializer that fails on the body [garbage] and leaves the review
    untouched, and otherwise reads the body as the kind of the reviewed
    object; a pod always gets one patch operation. *)
Definition plainEnv : Env :=
  {| PatchOperation := string;
     Decode := fun body =>
       if decide (body = "garbage") then
         ({| Kind := ""; APIVersion := ""; Request := None; Response := None |},
          Some "couldn't get version/kind; json parse error")
       else
         ({| Kind := "AdmissionReview"; APIVersion := "admission.k8s.io/v1";
             Request := Some {| UID := "uid-1"; Kind_Kind := body |};
             Response := None |},
          None);
     getPodPatchOperations := fun _ => (["add sidecar"], None);
     marshalPatchOps := fun _ => inr "[patch]";
     marshalReview := fun _ => inr "{review}";
     writeResponse := fun _ => None |}.

Definition post (body : string) : HttpRequest :=
  {| Body := Some body;
     Header := {[ "Content-Type" := ["application/json"] ]} |}.

End injector_examples.

(* ===================================================================== *)
(** * Part V: properties of the string functions                          *)
(* ===================================================================== *)

Section string_facts.

Implicit Types (s r l : string) (c a : ascii).

Lemma app_String a s r : String a s +:+ r = String a (s +:+ r).
Proof. reflexivity. Qed.

Lemma app_empty_l s : "" +:+ s = s.
Proof. reflexivity. Qed.

Lemma app_eq_empty s r : s +:+ r = "" -> s = "" /\ r = "".
Proof. destruct s; [done | discriminate]. Qed.

Lemma TrimLeft_split s c :
  exists n, s = repeatByte n c +:+ strings.TrimLeft s c.
Proof.
  induction s as [|a s [n IH]]; [by exists 0%nat |].
  simpl. case_decide as Hac.
  - subst a. exists (S n). simpl. by rewrite app_String, <- IH.
  - by exists 0%nat.
Qed.

Lemma TrimLeft_noLeading s c : noLeading c (strings.TrimLeft s c).
Proof.
  induction s as [|a s IH]; intros r; [done |].
  simpl. case_decide; [apply IH | by intros [= ? ?]].
Qed.

Lemma TrimLeft_id s c : noLeading c s -> strings.TrimLeft s c = s.
Proof.
  destruct s as [|a s]; [done |]. intros Hno. simpl.
  case_decide; [subst; by destruct (Hno s) | done].
Qed.

Lemma TrimRight_split s c :
  exists n, s = strings.TrimRight s c +:+ repeatByte n c.
Proof.
  induction s as [|a s [n IH]]; [by exists 0%nat |].
  simpl. destruct (strings.TrimRight s c) as [|b t] eqn:E.
  - simpl in IH. case_decide as Hac.
    + subst a. exists (S n). simpl. by rewrite IH.
    + exists n. by rewrite IH.
  - exists n. by rewrite IH.
Qed.

Lemma TrimRight_noTrailing s c : noTrailing c (strings.TrimRight s c).
Proof.
  induction s as [|a s IH]; intros l; simpl.
  - by destruct l.
  - destruct (strings.TrimRight s c) as [|b t] eqn:E.
    + case_decide as Hac; [by destruct l |].
      destruct l as [|a' [|? ?]]; rewrite ?app_String, ?app_empty_l; congruence.
    + destruct l as [|a' l]; [rewrite app_empty_l; congruence |].
      rewrite app_String. intros [= -> Heq]. by apply (IH l).
Qed.

Lemma TrimRight_id s c : noTrailing c s -> strings.TrimRight s c = s.
Proof.
  induction s as [|a s IH]; [done |]. intros Hno. simpl.
  rewrite IH.
  - destruct s; [| done]. case_decide; [| done].
    subst a. by destruct (Hno "").
  - intros l ->. by apply (Hno (String a l)).
Qed.

Lemma TrimRight_keeps_noLeading s c :
  noLeading c s -> noLeading c (strings.TrimRight s c).
Proof.
  destruct s as [|a s]; intros Hno r; simpl; [done |].
  destruct (strings.TrimRight s c).
  - case_decide; [done |]. congruence.
  - intros [= -> _]. by apply (Hno s).
Qed.

(** Trimming never makes a string longer, and a string it leaves as long
    is left as it is. *)
Lemma length_TrimLeft s c : (String.length (strings.TrimLeft s c) <= String.length s)%nat.
Proof.
  induction s as [|a s IH]; simpl; [done |].
  case_decide; simpl; lia.
Qed.

Lemma length_TrimRight s c : (String.length (strings.TrimRight s c) <= String.length s)%nat.
Proof.
  induction s as [|a s IH]; simpl; [done |].
  destruct (strings.TrimRight s c); [case_decide |]; simpl in *; lia.
Qed.

Lemma stripSpaces_length_fuel back (n : nat) s :
  (String.length s <= n)%nat ->
  (String.length (strings.stripSpaces back s) <= String.length s)%nat
  /\ (String.length (strings.stripSpaces back s) = String.length s ->
      strings.stripSpaces back s = s).
Proof.
  revert s. induction n as [|n IH]; intros s Hn.
  { destruct s; simpl in *; [done | lia]. }
  destruct s as [|a [|b [|c s3]]]; simpl in *.
  - done.
  - destruct (strings.isAsciiSpace a); simpl; split; (done || lia).
  - destruct (IH (String b "") ltac:(simpl; lia)) as [Hle _]. simpl in Hle.
    destruct (strings.isAsciiSpace a); [split; lia |].
    destruct (if back then strings.isSpace2 b a else strings.isSpace2 a b);
      simpl; split; (done || lia).
  - destruct (IH (String b (String c s3)) ltac:(simpl; lia)) as [Hle1 _].
    destruct (IH (String c s3) ltac:(simpl; lia)) as [Hle2 _].
    destruct (IH s3 ltac:(lia)) as [Hle3 _]. simpl in Hle1, Hle2.
    destruct (strings.isAsciiSpace a); [split; lia |].
    destruct (if back then strings.isSpace2 b a else strings.isSpace2 a b);
      [split; lia |].
    destruct (if back then strings.isSpace3 c b a else strings.isSpace3 a b c);
      [split; lia |].
    done.
Qed.

Lemma length_stripSpaces back s :
  (String.length (strings.stripSpaces back s) <= String.length s)%nat.
Proof. by apply (stripSpaces_length_fuel back (String.length s)). Qed.

Lemma stripSpaces_same_length back s :
  String.length (strings.stripSpaces back s) = String.length s ->
  strings.stripSpaces back s = s.
Proof. by apply (stripSpaces_length_fuel back (String.length s)). Qed.

Lemma length_rev_app s r :
  String.length (String.rev_app s r) = (String.length s + String.length r)%nat.
Proof.
  revert r. induction s as [|a s IH]; intros r; simpl; [done |].
  rewrite IH. simpl. lia.
Qed.

Lemma length_rev s : String.length (String.rev s) = String.length s.
Proof. unfold String.rev. rewrite length_rev_app. simpl. lia. Qed.

Lemma rev_app_rev_app s r l :
  String.rev_app (String.rev_app s r) l = String.rev_app r (s +:+ l).
Proof.
  revert r l. induction s as [|a s IH]; intros r l; simpl; [done |].
  by rewrite IH.
Qed.

Lemma rev_involutive s : String.rev (String.rev s) = s.
Proof.
  unfold String.rev. rewrite rev_app_rev_app. simpl.
  induction s as [|a s IH]; [done |]. by rewrite app_String, IH.
Qed.

Lemma length_TrimSpace s : (String.length (strings.TrimSpace s) <= String.length s)%nat.
Proof.
  unfold strings.TrimSpace. rewrite length_rev.
  etrans; [apply length_stripSpaces |]. rewrite length_rev.
  apply length_stripSpaces.
Qed.

Lemma TrimSpace_same_length s :
  String.length (strings.TrimSpace s) = String.length s -> strings.TrimSpace s = s.
Proof.
  unfold strings.TrimSpace. rewrite length_rev. intros Hlen.
  pose proof (length_stripSpaces true (String.rev (strings.stripSpaces false s))) as H1.
  pose proof (length_stripSpaces false s) as H2.
  rewrite length_rev in H1.
  rewrite (stripSpaces_same_length false s) by lia.
  rewrite (stripSpaces_same_length false s) in Hlen by lia.
  rewrite stripSpaces_same_length; [apply rev_involutive |].
  by rewrite length_rev.
Qed.

(** [HasPrefix] and [Contains] decide what their names say. *)
Lemma HasPrefix_spec s p :
  strings.HasPrefix s p = true <-> exists post, s = p +:+ post.
Proof.
  revert s. induction p as [|b p IH]; intros [|a s]; simpl.
  - split; [by exists "" | done].
  - split; [by exists (String a s) | done].
  - split; [done | by intros [? ?]].
  - rewrite andb_true_iff, bool_decide_eq_true, IH. split.
    + intros [-> [post ->]]. by exists post.
    + intros [post [= -> ->]]. eauto.
Qed.

Lemma Contains_nil sub : strings.Contains "" sub = strings.HasPrefix "" sub || false.
Proof. reflexivity. Qed.

Lemma Contains_cons a s sub :
  strings.Contains (String a s) sub
  = strings.HasPrefix (String a s) sub || strings.Contains s sub.
Proof. reflexivity. Qed.

Lemma Contains_spec s sub :
  strings.Contains s sub = true <-> exists pre post, s = pre +:+ sub +:+ post.
Proof.
  induction s as [|a s IH]; [rewrite Contains_nil | rewrite Contains_cons].
  - rewrite orb_false_r, HasPrefix_spec. split.
    + intros [post E]. by exists "", post.
    + intros [pre [post E]]. symmetry in E.
      apply app_eq_empty in E as [-> E]. exists post. by rewrite E.
  - rewrite orb_true_iff, HasPrefix_spec, IH. split.
    + intros [[post E] | (pre & post & E)].
      * by exists "", post.
      * exists (String a pre), post. by rewrite app_String, E.
    + intros (pre & post & E). destruct pre as [|b pre].
      * left. by exists post.
      * right. injection E as -> E. by exists pre, post.
Qed.

Example TrimSpace_ex1 :
  strings.TrimSpace (String "009" " 'a b' " +:+ String "010" "") = "'a b'".
Proof. reflexivity. Qed.

(** U+00A0 (C2 A0) in front and U+3000 (E3 80 80) behind are white space. *)
Example TrimSpace_ex2 :
  strings.TrimSpace
    (String "194" (String "160" "x" +:+ String "227" (String "128" (String "128" ""))))
  = "x".
Proof. reflexivity. Qed.

Example Split_ex : strings.Split "a,,b," "," = ["a"; ""; "b"; ""].
Proof. reflexivity. Qed.

Example SplitN2_ex : strings.SplitN2 "k:n/s:x" ":" = ["k"; "n/s:x"].
Proof. reflexivity. Qed.

Example Sprintf_d_ex :
  map fmt.Sprintf_d [0; 7; 80; 8080; -15; 2147483647]
  = ["0"; "7"; "80"; "8080"; "-15"; "2147483647"].
Proof. reflexivity. Qed.

End string_facts.

(* ===================================================================== *)
(** * Part VI: annotation value cleaning                                  *)
(* ===================================================================== *)

Section cleaning.

Import activator.

Lemma quotes_repeatByte n : quotes n = repeatByte n strings.quote.
Proof. induction n as [|n IH]; [done |]. simpl. by rewrite IH. Qed.

Lemma clean_noLeading x : noLeading strings.quote (cleanAnnotationValue x).
Proof. apply TrimRight_keeps_noLeading, TrimLeft_noLeading. Qed.

Lemma clean_noTrailing x : noTrailing strings.quote (cleanAnnotationValue x).
Proof. apply TrimRight_noTrailing. Qed.

(** Stripping the quotes of a string that has none at its ends does
    nothing. *)
Lemma clean_of_trimmed y :
  strings.TrimSpace y = y ->
  noLeading strings.quote y -> noTrailing strings.quote y ->
  cleanAnnotationValue y = y.
Proof.
  intros Hsp Hl Ht. unfold cleanAnnotationValue.
  rewrite Hsp, (TrimLeft_id _ _ Hl). by apply TrimRight_id.
Qed.

(** C5, as amended: cleaning trims the white space and then strips every
    leading and every trailing single quote.  The trimmed value is the
    cleaned one between two runs of quotes, and the cleaned value neither
    starts nor ends with a quote. *)
Theorem C5_clean_strips_all_quotes (x : string) :
  (exists m n,
      strings.TrimSpace x = quotes m +:+ cleanAnnotationValue x +:+ quotes n)
  /\ (forall r, cleanAnnotationValue x <> String "'" r)
  /\ (forall l, cleanAnnotationValue x <> l +:+ "'").
Proof.
  split; [| split].
  - unfold cleanAnnotationValue.
    destruct (TrimLeft_split (strings.TrimSpace x) strings.quote) as [m Hm].
    destruct (TrimRight_split
                (strings.TrimLeft (strings.TrimSpace x) strings.quote)
                strings.quote) as [n Hn].
    exists m, n. rewrite !quotes_repeatByte.
    rewrite Hm at 1. by rewrite Hn at 1.
  - apply clean_noLeading.
  - apply clean_noTrailing.
Qed.

(** C5, as stated, fails: of two quotes on each side, a single one would be
    stripped; the code strips both. *)
Lemma C5_counterexample :
  cleanAnnotationValue "''a''" = "a"
  /\ cleanSingleQuotes "''a''" = "'a'"
  /\ cleanAnnotationValue "''a''" <> cleanSingleQuotes "''a''".
Proof. repeat split. vm_compute. discriminate. Qed.

Lemma length_clean x :
  (String.length (cleanAnnotationValue x) <= String.length (strings.TrimSpace x))%nat.
Proof.
  unfold cleanAnnotationValue.
  etrans; [apply length_TrimRight | apply length_TrimLeft].
Qed.

(** A value that cleaning leaves as it is has no white space at its ends. *)
Lemma clean_fixed_is_trimmed y :
  cleanAnnotationValue y = y -> strings.TrimSpace y = y.
Proof.
  intros Hfix. apply TrimSpace_same_length.
  pose proof (length_clean y) as H1. pose proof (length_TrimSpace y) as H2.
  rewrite Hfix in H1. lia.
Qed.

(** C6, as amended: cleaning a cleaned value changes nothing exactly when
    the cleaned value has no white space at its ends (trimming the white
    space leaves it as it is). *)
Theorem C6_clean_idempotent_iff_trimmed (x : string) :
  cleanAnnotationValue (cleanAnnotationValue x) = cleanAnnotationValue x
  <-> strings.TrimSpace (cleanAnnotationValue x) = cleanAnnotationValue x.
Proof.
  split.
  - apply clean_fixed_is_trimmed.
  - intros Hsp. apply clean_of_trimmed; [done | |].
    + apply clean_noLeading.
    + apply clean_noTrailing.
Qed.

(** The value [''my-app'] between spaces: cleaned, it has no white space at
    its ends, and cleaning it again changes nothing. *)
Lemma C6_witness :
  strings.TrimSpace (cleanAnnotationValue " ''my-app' ")
  = cleanAnnotationValue " ''my-app' "
  /\ cleanAnnotationValue (cleanAnnotationValue " ''my-app' ")
     = cleanAnnotationValue " ''my-app' ".
Proof.
  split; [reflexivity |].
  apply (C6_clean_idempotent_iff_trimmed " ''my-app' "). reflexivity.
Defined.

(** C6, as stated, fails: white space inside the quotes survives the first
    cleaning and is trimmed by the second. *)
Lemma C6_counterexample :
  cleanAnnotationValue "' a'" = " a"
  /\ cleanAnnotationValue (cleanAnnotationValue "' a'") = "a"
  /\ cleanAnnotationValue (cleanAnnotationValue "' a'")
     <> cleanAnnotationValue "' a'".
Proof. repeat split. vm_compute. discriminate. Qed.

End cleaning.

(* ===================================================================== *)
(** * Part VII: the proxy sidecar counts the requests it does not ignore  *)
(* ===================================================================== *)

Section counting.

Import proxy.

Implicit Types (s : singlePortProxy) (r : Request) (rs : list Request).

Lemma wrap64_range n : is_uint64 (wrap64 n).
Proof. unfold is_uint64, wrap64, uint64_max. apply Z.mod_pos_bound. lia. Qed.

Lemma wrap64_small n : is_uint64 n -> wrap64 n = n.
Proof. unfold is_uint64, wrap64. apply Z.mod_small. Qed.

Lemma wrap64_add_l n k : wrap64 (wrap64 n + k) = wrap64 (n + k).
Proof. unfold wrap64, uint64_max. by rewrite Zplus_mod_idemp_l. Qed.

Lemma isIgnoredPath_spec s r :
  isIgnoredPath s r = true
  <-> exists u, RequestURL r = Some u /\ Path u <> "" /\ Path u ∈ ignoredPaths s.
Proof.
  unfold isIgnoredPath. destruct (RequestURL r) as [u|].
  - case_decide as Hlen.
    + split; [done |]. intros (u' & [= <-] & Hne & _).
      by destruct (Path u).
    + rewrite bool_decide_eq_true. split.
      * intros Hin. exists u. split_and!; [done | | done].
        intros E. by rewrite E in Hlen.
      * by intros (u' & [= <-] & _ & Hin).
  - split; [done | by intros (u & ? & _)].
Qed.

Lemma handleRequest_ignored s r c :
  isIgnoredRequest s r = true -> handleRequest s r c = (c, None).
Proof. unfold handleRequest. by intros ->. Qed.

Lemma handleRequest_counted s r c :
  isIgnoredRequest s r = false ->
  handleRequest s r c = (wrap64 (c + 1), Some (wrap64 (c + 1))).
Proof. unfold handleRequest, atomic_AddUint64. by intros ->. Qed.

Lemma serve_cons s r rs c :
  serve s (r :: rs) c = serve s rs (handleRequest s r c).1.
Proof. reflexivity. Qed.

Lemma counted_cons s r rs :
  counted s (r :: rs)
  = if isIgnoredRequest s r then counted s rs else r :: counted s rs.
Proof.
  unfold counted. rewrite filter_cons.
  destruct (isIgnoredRequest s r); by case_decide.
Qed.

Lemma serve_counts s rs c :
  is_uint64 c -> serve s rs c = wrap64 (c + Z.of_nat (length (counted s rs))).
Proof.
  revert c. induction rs as [|r rs IH]; intros c Hc.
  - simpl. by rewrite Z.add_0_r, wrap64_small.
  - rewrite serve_cons, counted_cons.
    destruct (isIgnoredRequest s r) eqn:Hig.
    + rewrite handleRequest_ignored by done. by apply IH.
    + rewrite handleRequest_counted by done. simpl fst.
      rewrite IH by apply wrap64_range.
      rewrite wrap64_add_l. f_equal. simpl length. lia.
Qed.

(** C8, as amended: a request is ignored exactly when its URL is not nil
    and its path is not empty and is in [ignoredPaths], or its User-Agent
    contains "kube-probe"; an ignored request leaves the counter as it is;
    and after any sequence of requests the counter is its initial value plus
    the number of requests not ignored, modulo 2^64. *)
Theorem C8_requestCount_counts_non_ignored s rs (initial : Z) :
  is_uint64 initial ->
  (forall r,
      isIgnoredRequest s r = true
      <-> (exists u, RequestURL r = Some u /\ Path u <> ""
                     /\ Path u ∈ ignoredPaths s)
          \/ (exists pre post,
                Header_Get (Header r) "User-Agent"
                = pre +:+ "kube-probe" +:+ post))
  /\ (forall r c, isIgnoredRequest s r = true -> (handleRequest s r c).1 = c)
  /\ serve s rs initial
     = (initial + Z.of_nat (length (counted s rs))) mod 2 ^ 64.
Proof.
  intros Hinit. split_and!.
  - intros r. unfold isIgnoredRequest, isKubeProbe.
    by rewrite orb_true_iff, isIgnoredPath_spec, Contains_spec.
  - intros r c Hig. by rewrite handleRequest_ignored.
  - by apply serve_counts.
Qed.

Lemma C8_witness :
  is_uint64 41
  /\ serve metricsIgnored [probe; getOf "/metrics"; getOf "/api"; getOf "/"] 41
     = 43.
Proof.
  assert (is_uint64 41) as H41 by (unfold is_uint64, uint64_max; lia).
  split; [exact H41 |].
  destruct (C8_requestCount_counts_non_ignored metricsIgnored
              [probe; getOf "/metrics"; getOf "/api"; getOf "/"] 41 H41)
    as (_ & _ & ->).
  vm_compute. reflexivity.
Defined.

(** C8, as stated, fails: the path of the request is in [ignoredPaths], so
    the request is ignored as the claim words it, and it is counted. *)
Lemma C8_counterexample :
  ignoredAsSpecified emptyIgnored (getOf "")
  /\ isIgnoredRequest emptyIgnored (getOf "") = false
  /\ (handleRequest emptyIgnored (getOf "") 0).1 = 1.
Proof.
  split_and!; [| vm_compute; reflexivity..].
  left. exists {| Path := "" |}. split; [reflexivity |].
  simpl. set_solver.
Qed.

(** C9: a request whose URL is nil or whose path is empty is never ignored
    by path, whatever [ignoredPaths] holds; unless it is a probe it is
    counted. *)
Theorem C9_empty_path_not_ignored s r (c : Z) :
  (RequestURL r = None \/ exists u, RequestURL r = Some u /\ Path u = "") ->
  isIgnoredPath s r = false
  /\ (isKubeProbe r = false ->
      handleRequest s r c = (wrap64 (c + 1), Some (wrap64 (c + 1)))).
Proof.
  intros Hurl.
  assert (isIgnoredPath s r = false) as Hpath.
  { unfold isIgnoredPath. destruct Hurl as [-> | (u & -> & Hu)]; [done |].
    rewrite Hu. by case_decide. }
  split; [done |]. intros Hprobe.
  apply handleRequest_counted. unfold isIgnoredRequest.
  by rewrite Hpath, Hprobe.
Qed.

Lemma C9_witness :
  "" ∈ ignoredPaths emptyIgnored
  /\ isIgnoredPath emptyIgnored (getOf "") = false
  /\ handleRequest emptyIgnored (getOf "") 7 = (8, Some 8).
Proof.
  split; [simpl; set_solver |].
  destruct (C9_empty_path_not_ignored emptyIgnored (getOf "") 7) as [Hp Hc].
  { right. by exists {| Path := "" |}. }
  split; [exact Hp |]. rewrite Hc; [reflexivity |]. vm_compute. reflexivity.
Defined.

End counting.

(* ===================================================================== *)
(** * Part VIII: the host index                                           *)
(* ===================================================================== *)

Section host_index.

Import activator.
Context `{Env}.

Implicit Types (a : activator) (svc : Service) (port : ServicePort)
  (m : gmap string app) (host h : string) (log : list LogEntry).

Lemma forM_app {A S : Type} (body : A -> S -> result S) (xs ys : list A) (s : S) :
  forM body (xs ++ ys) s = (s' ← forM body xs s; forM body ys s').
Proof.
  revert s. induction xs as [|x xs IH]; intros s; [done |].
  simpl. destruct (body x s) as [s'|msg]; [apply IH | done].
Qed.

Lemma indexService_withServices a svcs svc st :
  indexService (withServices a svcs) svc st = indexService a svc st.
Proof. reflexivity. Qed.

Lemma forM_indexService_withServices a svcs l st :
  forM (indexService (withServices a svcs)) l st = forM (indexService a) l st.
Proof.
  revert st. induction l as [|svc l IH]; intros st; [done |].
  simpl. rewrite indexService_withServices.
  destruct (indexService a svc st); [apply IH | done].
Qed.

(** A service the loop skips: its body returns the index as it was. *)
Lemma indexService_skips a svc st :
  (serviceBinding a svc).1.1 = "" -> indexService a svc st = Ok st.
Proof.
  unfold indexService.
  destruct (serviceBinding a svc) as [[name kind] deps]. simpl.
  intros ->. by case_decide.
Qed.

Lemma serviceBinding_unbound a svc :
  (svc_Annotations svc !! "osiris.dm.gg/deployment" = None
   /\ svc_Annotations svc !! "osiris.dm.gg/statefulset" = None)
  \/ (exists v, svc_Annotations svc !! "osiris.dm.gg/deployment" = Some v
                /\ cleanAnnotationValue v = "")
  \/ (svc_Annotations svc !! "osiris.dm.gg/deployment" = None
      /\ exists v, svc_Annotations svc !! "osiris.dm.gg/statefulset" = Some v
                   /\ cleanAnnotationValue v = "") ->
  (serviceBinding a svc).1.1 = "".
Proof.
  unfold serviceBinding.
  intros [[-> ->] | [(v & -> & Hv) | (-> & v & -> & Hv)]]; simpl; done.
Qed.

(** C10: a service that has neither the deployment nor the statefulset
    annotation, or whose annotation (the deployment one when it is there,
    else the statefulset one) cleans to the empty string, registers
    nothing: the loop body of [updateIndex] returns the index and the log as
    they were, and [updateIndex] ends as it does without the service, with
    the same index and the same log. *)
Theorem C10_unbound_service_registers_nothing a svc (before after : list Service) :
  (svc_Annotations svc !! "osiris.dm.gg/deployment" = None
   /\ svc_Annotations svc !! "osiris.dm.gg/statefulset" = None)
  \/ (exists v, svc_Annotations svc !! "osiris.dm.gg/deployment" = Some v
                /\ cleanAnnotationValue v = "")
  \/ (svc_Annotations svc !! "osiris.dm.gg/deployment" = None
      /\ exists v, svc_Annotations svc !! "osiris.dm.gg/statefulset" = Some v
                   /\ cleanAnnotationValue v = "") ->
  (forall st, indexService a svc st = Ok st)
  /\ match updateIndex (withServices a (before ++ svc :: after)),
           updateIndex (withServices a (before ++ after)) with
     | Ok (a1, log1), Ok (a2, log2) =>
       appsByHost a1 = appsByHost a2 /\ log1 = log2
     | Panic msg1, Panic msg2 => msg1 = msg2
     | _, _ => False
     end.
Proof.
  intros Hunbound.
  assert (forall st, indexService a svc st = Ok st) as Hskip.
  { intros st. by apply indexService_skips, serviceBinding_unbound. }
  split; [done |].
  unfold updateIndex. cbn [services withServices].
  rewrite !forM_indexService_withServices, !forM_app.
  destruct (forM (indexService a) before (∅, [])) as [st|msg]; [| done].
  cbn [mbind result_bind forM]. rewrite Hskip. cbn [mbind result_bind].
  destruct (forM (indexService a) after st) as [[m log]|msg]; done.
Qed.

(** ** What [updateIndex] registers *)

Lemma assignAll_mono hosts (ap : app) m h :
  is_Some (m !! h) -> is_Some (assignAll hosts ap m !! h).
Proof.
  revert m. induction hosts as [|x hosts IH]; intros m Hm; [done |].
  simpl. apply IH. rewrite lookup_insert_is_Some'. by right.
Qed.

Lemma assignAll_elem hosts (ap : app) m h :
  h ∈ hosts -> is_Some (assignAll hosts ap m !! h).
Proof.
  revert m. induction hosts as [|x hosts IH]; intros m Hin.
  - by apply elem_of_nil in Hin.
  - apply elem_of_cons in Hin as [-> | Hin]; simpl.
    + apply assignAll_mono. rewrite lookup_insert_is_Some'. by left.
    + by apply IH.
Qed.

Lemma indexPort_mono a svc name kind deps idp st port h :
  is_Some (st.1 !! h) ->
  is_Some ((indexPort a svc name kind deps idp st port).1 !! h).
Proof.
  destruct st as [m log]. unfold indexPort.
  destruct (url_Parse _); simpl; [apply assignAll_mono | done].
Qed.

Lemma indexPort_elem a svc name kind deps idp st port h :
  is_Some (url_Parse ("http://" +:+ hostPort (svc_Spec_ClusterIP svc) (port_Port port))) ->
  h ∈ portHosts (nodeAddresses a) svc idp port ->
  is_Some ((indexPort a svc name kind deps idp st port).1 !! h).
Proof.
  destruct st as [m log]. unfold indexPort. intros [u ->] Hin. simpl.
  by apply assignAll_elem.
Qed.

Lemma indexPorts_mono a svc name kind deps idp ports st h :
  is_Some (st.1 !! h) ->
  is_Some ((foldl (indexPort a svc name kind deps idp) st ports).1 !! h).
Proof.
  revert st. induction ports as [|p ports IH]; intros st Hst; [done |].
  simpl. by apply IH, indexPort_mono.
Qed.

Lemma indexPorts_elem a svc name kind deps idp ports st port h :
  port ∈ ports ->
  is_Some (url_Parse ("http://" +:+ hostPort (svc_Spec_ClusterIP svc) (port_Port port))) ->
  h ∈ portHosts (nodeAddresses a) svc idp port ->
  is_Some ((foldl (indexPort a svc name kind deps idp) st ports).1 !! h).
Proof.
  revert st. induction ports as [|p ports IH]; intros st Hport Hurl Hin.
  - by apply elem_of_nil in Hport.
  - simpl. apply elem_of_cons in Hport as [<- | Hport].
    + by apply indexPorts_mono, indexPort_elem.
    + by apply IH.
Qed.

Lemma indexService_mono a svc st st' h :
  indexService a svc st = Ok st' -> is_Some (st.1 !! h) -> is_Some (st'.1 !! h).
Proof.
  unfold indexService.
  destruct (serviceBinding a svc) as [[name kind] deps].
  case_decide; [by intros [= <-] |].
  destruct (parseDependencies svc deps st.2) as [[dependencies log]|msg];
    [| done].
  cbn [mbind result_bind]. intros [= <-] Hst. by apply indexPorts_mono.
Qed.

Lemma indexService_elem a svc st st' port h :
  indexService a svc st = Ok st' ->
  (serviceBinding a svc).1.1 <> "" ->
  port ∈ svc_Spec_Ports svc ->
  is_Some (url_Parse ("http://" +:+ hostPort (svc_Spec_ClusterIP svc) (port_Port port))) ->
  h ∈ portHosts (nodeAddresses a) svc (ingressDefaultPortOf svc) port ->
  is_Some (st'.1 !! h).
Proof.
  unfold indexService.
  destruct (serviceBinding a svc) as [[name kind] deps]. simpl.
  intros Hok Hname. case_decide as Hlen; [by destruct name |].
  destruct (parseDependencies svc deps st.2) as [[dependencies log]|msg];
    [| done].
  cbn [mbind result_bind] in Hok. injection Hok as <-.
  by apply indexPorts_elem.
Qed.

Lemma indexServices_mono a svcs st st' h :
  forM (indexService a) svcs st = Ok st' ->
  is_Some (st.1 !! h) -> is_Some (st'.1 !! h).
Proof.
  revert st. induction svcs as [|svc svcs IH]; intros st; simpl.
  - by intros [= <-].
  - destruct (indexService a svc st) as [st1|msg] eqn:E; [| done].
    cbn [mbind result_bind]. intros Hok Hst.
    eapply IH; [done |]. by eapply indexService_mono.
Qed.

Lemma indexServices_elem a svcs st st' svc port h :
  forM (indexService a) svcs st = Ok st' ->
  svc ∈ svcs ->
  (serviceBinding a svc).1.1 <> "" ->
  port ∈ svc_Spec_Ports svc ->
  is_Some (url_Parse ("http://" +:+ hostPort (svc_Spec_ClusterIP svc) (port_Port port))) ->
  h ∈ portHosts (nodeAddresses a) svc (ingressDefaultPortOf svc) port ->
  is_Some (st'.1 !! h).
Proof.
  revert st. induction svcs as [|svc0 svcs IH]; intros st Hok Hsvc; simpl in Hok.
  - by apply elem_of_nil in Hsvc.
  - destruct (indexService a svc0 st) as [st1|msg] eqn:E; [| done].
    cbn [mbind result_bind] in Hok. intros Hname Hport Hurl Hin.
    apply elem_of_cons in Hsvc as [-> | Hsvc].
    + eapply indexServices_mono; [done |]. by eapply indexService_elem.
    + by eapply IH.
Qed.

Lemma updateIndex_registers a a' log svc port h :
  updateIndex a = Ok (a', log) ->
  svc ∈ services a ->
  (serviceBinding a svc).1.1 <> "" ->
  port ∈ svc_Spec_Ports svc ->
  is_Some (url_Parse ("http://" +:+ hostPort (svc_Spec_ClusterIP svc) (port_Port port))) ->
  h ∈ portHosts (nodeAddresses a) svc (ingressDefaultPortOf svc) port ->
  registered a' h.
Proof.
  unfold updateIndex, registered.
  destruct (forM (indexService a) (services a) (∅, [])) as [[m l]|msg] eqn:E;
    [| done].
  cbn [mbind result_bind]. intros [= <- <-]. simpl.
  intros. by eapply (indexServices_elem a _ _ (m, l)).
Qed.

Lemma elem_of_annotatedHostnames matchString svc k v :
  svc_Annotations svc !! k = Some v ->
  matchString k = true ->
  cleanAnnotationValue v ∈ annotatedHostnames matchString svc.
Proof.
  intros Hk Hm. unfold annotatedHostnames.
  apply (list_elem_of_fmap_2 (fun kv : string * string => cleanAnnotationValue kv.2)
                        _ (k, v)).
  apply list_elem_of_filter. split; [done |]. by apply elem_of_map_to_list.
Qed.

Lemma serviceBinding_bound a svc :
  (exists v, svc_Annotations svc !! "osiris.dm.gg/deployment" = Some v
             /\ cleanAnnotationValue v <> "")
  \/ (svc_Annotations svc !! "osiris.dm.gg/deployment" = None
      /\ exists v, svc_Annotations svc !! "osiris.dm.gg/statefulset" = Some v
                   /\ cleanAnnotationValue v <> "") ->
  (serviceBinding a svc).1.1 <> "".
Proof.
  unfold serviceBinding.
  intros [(v & -> & Hv) | (-> & v & -> & Hv)]; simpl; done.
Qed.

Lemma portHosts_suffixed (nodes : gset string) svc idp port h :
  h ∈ addressed svc ->
  hostPort h (port_Port port) ∈ portHosts nodes svc idp port.
Proof.
  unfold addressed, portHosts. rewrite !elem_of_app, list_elem_of_singleton.
  intros Hin. right. right.
  destruct Hin as [Hin | [-> | [Hin | Hin]]].
  - left. apply list_elem_of_fmap. eauto.
  - right. left. by apply list_elem_of_singleton.
  - right. right. left. apply list_elem_of_fmap. eauto.
  - do 4 right. apply list_elem_of_fmap. eauto.
Qed.

Lemma portHosts_bare (nodes : gset string) svc idp port h :
  port_Port port = 80 -> h ∈ addressed svc -> h ∈ portHosts nodes svc idp port.
Proof.
  unfold addressed, portHosts. intros Hport Hin.
  apply elem_of_app. left. by case_decide.
Qed.

Lemma portHosts_ingress (nodes : gset string) svc idp port h :
  fmt.Sprintf_d (port_Port port) = idp ->
  h ∈ annotatedHostnames ingressHostnameAnnotationRegex_MatchString svc ->
  h ∈ portHosts nodes svc idp port.
Proof.
  unfold portHosts. intros Hport Hin.
  apply elem_of_app. right. apply elem_of_app. left. by case_decide.
Qed.

Lemma portHosts_node (nodes : gset string) svc idp port nodeAddress :
  port_NodePort port <> 0 ->
  nodeAddress ∈ nodes ->
  hostPort nodeAddress (port_NodePort port) ∈ portHosts nodes svc idp port.
Proof.
  unfold portHosts. intros Hport Hin. rewrite !elem_of_app.
  do 5 right. left. case_decide; [| done].
  apply list_elem_of_fmap. exists nodeAddress. split; [done |].
  by apply elem_of_elements.
Qed.

Lemma elem_of_ingressIPs svc (ing : LoadBalancerIngress) :
  ing ∈ svc_Status_LoadBalancer_Ingress svc ->
  ingress_IP ing <> "" ->
  ingress_IP ing ∈ ingressIPs svc.
Proof.
  intros Hin Hne. unfold ingressIPs.
  apply list_elem_of_filter. split; [done |].
  apply list_elem_of_fmap. eauto.
Qed.

(** C4, as amended.  When [updateIndex] returns, then for every service it
    indexes (the deployment annotation, or without one the statefulset
    annotation, cleans to a name that is not empty) and every port of the
    service whose target URL parses:
    - each of the four DNS names, the cluster IP, each load-balancer ingress
      IP that is not empty and the value of each [loadBalancerHostname]
      annotation is registered with the port as suffix, and, when the port
      is 80, bare;
    - the value of each [ingressHostname] annotation is registered bare when
      the port is the ingress default port;
    - when the node port is not zero, every node address is registered with
      the node port as suffix. *)
Theorem C4_hosts_registered a a' log svc port :
  updateIndex a = Ok (a', log) ->
  svc ∈ services a ->
  (exists v, svc_Annotations svc !! "osiris.dm.gg/deployment" = Some v
             /\ cleanAnnotationValue v <> "")
  \/ (svc_Annotations svc !! "osiris.dm.gg/deployment" = None
      /\ exists v, svc_Annotations svc !! "osiris.dm.gg/statefulset" = Some v
                   /\ cleanAnnotationValue v <> "") ->
  port ∈ svc_Spec_Ports svc ->
  is_Some (url_Parse ("http://" +:+ hostPort (svc_Spec_ClusterIP svc)
                                             (port_Port port))) ->
  let withPort h := registered a' (hostPort h (port_Port port)) in
  let bareOn80 h := port_Port port = 80 -> registered a' h in
  (forall h, h ∈ svcDNSNames svc -> withPort h /\ bareOn80 h)
  /\ (withPort (svc_Spec_ClusterIP svc) /\ bareOn80 (svc_Spec_ClusterIP svc))
  /\ (forall ing, ing ∈ svc_Status_LoadBalancer_Ingress svc ->
                  ingress_IP ing <> "" ->
                  withPort (ingress_IP ing) /\ bareOn80 (ingress_IP ing))
  /\ (forall k v, svc_Annotations svc !! k = Some v ->
                  loadBalancerHostnameAnnotationRegex_MatchString k = true ->
                  withPort (cleanAnnotationValue v)
                  /\ bareOn80 (cleanAnnotationValue v))
  /\ (forall k v, svc_Annotations svc !! k = Some v ->
                  ingressHostnameAnnotationRegex_MatchString k = true ->
                  fmt.Sprintf_d (port_Port port) = ingressDefaultPortOf svc ->
                  registered a' (cleanAnnotationValue v))
  /\ (port_NodePort port <> 0 ->
      forall nodeAddress, nodeAddress ∈ nodeAddresses a ->
        registered a' (hostPort nodeAddress (port_NodePort port))).
Proof.
  intros Hok Hsvc Hbound%(serviceBinding_bound a) Hport Hurl withPort bareOn80.
  assert (forall h, h ∈ portHosts (nodeAddresses a) svc (ingressDefaultPortOf svc) port ->
                    registered a' h) as Hreg.
  { intros h Hin. by eapply updateIndex_registers. }
  assert (forall h, h ∈ addressed svc -> withPort h /\ bareOn80 h) as Haddr.
  { intros h Hin. split.
    - by apply Hreg, portHosts_suffixed.
    - intros H80. by apply Hreg, portHosts_bare. }
  unfold addressed in Haddr. setoid_rewrite elem_of_app in Haddr.
  setoid_rewrite elem_of_app in Haddr. setoid_rewrite elem_of_app in Haddr.
  split; [| split; [| split; [| split; [| split]]]].
  - intros h Hin. apply Haddr. by left.
  - apply Haddr. right. left. by apply list_elem_of_singleton.
  - intros ing Hin Hne. apply Haddr. right. right. left.
    by apply elem_of_ingressIPs.
  - intros k v Hk Hm. apply Haddr. do 3 right.
    by eapply elem_of_annotatedHostnames.
  - intros k v Hk Hm Hdefault. apply Hreg, portHosts_ingress; [done |].
    by eapply elem_of_annotatedHostnames.
  - intros Hnode nodeAddress Hin. by apply Hreg, portHosts_node.
Qed.

(** ** The ingress default port *)

Lemma Sprintf_d_nonempty (n : Z) : fmt.Sprintf_d n <> "".
Proof.
  unfold fmt.Sprintf_d. simpl.
  destruct (n <? 0); [done |].
  destruct (_ <? 10)%N; [done |].
  assert (forall fuel k acc (d : ascii),
             fmt.digitsFuel fuel k (String d acc) <> "") as Hne.
  { induction fuel as [|fuel IH]; intros k acc d; simpl; [done |].
    destruct (k <? 10)%N; [done | apply IH]. }
  apply Hne.
Qed.

Lemma findHTTPPort_spec (ports : list ServicePort) (found : bool) :
  match head (filter (fun p => port_Name p = "http") ports) with
  | Some p => (findHTTPPort ports found).1 = fmt.Sprintf_d (port_Port p)
  | None =>
    findHTTPPort ports found
    = ("", found || bool_decide (Exists (fun p => port_Port p = 80) ports))
  end.
Proof.
  revert found. induction ports as [|p ports IH]; intros found; simpl.
  - by rewrite orb_false_r.
  - rewrite filter_cons. case_decide as Hname; [done |].
    specialize (IH (found || (port_Port p =? 80))).
    destruct (head (filter _ ports)); [done |]. rewrite IH. f_equal.
    rewrite <- orb_assoc. f_equal.
    destruct (Z.eqb_spec (port_Port p) 80) as [H80 | H80]; simpl.
    + symmetry. apply bool_decide_eq_true. by left.
    + apply bool_decide_ext. rewrite Exists_cons. tauto.
Qed.

(** The ingress default port is the value of the annotation when there is
    one; else the port of a service that has a single port; else the first
    port named "http"; else 80 when the service exposes port 80; else
    nothing. *)
Theorem ingressDefaultPort_rule svc :
  match svc_Annotations svc !! "osiris.dm.gg/ingressDefaultPort" with
  | Some value => ingressDefaultPortOf svc = value
  | None =>
    match svc_Spec_Ports svc with
    | [port] => ingressDefaultPortOf svc = fmt.Sprintf_d (port_Port port)
    | ports =>
      match head (filter (fun p => port_Name p = "http") ports) with
      | Some p => ingressDefaultPortOf svc = fmt.Sprintf_d (port_Port p)
      | None =>
        ingressDefaultPortOf svc
        = if decide (Exists (fun p => port_Port p = 80) ports) then "80" else ""
      end
    end
  end.
Proof.
  unfold ingressDefaultPortOf.
  destruct (svc_Annotations svc !! _); [done |].
  assert (forall ports : list ServicePort,
    match head (filter (fun p => port_Name p = "http") ports) with
    | Some p =>
      (let '(idp, found) := findHTTPPort ports false in
       if decide (idp = "") then (if found then "80" else idp) else idp)
      = fmt.Sprintf_d (port_Port p)
    | None =>
      (let '(idp, found) := findHTTPPort ports false in
       if decide (idp = "") then (if found then "80" else idp) else idp)
      = if decide (Exists (fun p => port_Port p = 80) ports) then "80" else ""
    end) as Hloop.
  { intros ports. pose proof (findHTTPPort_spec ports false) as Hspec.
    destruct (head (filter _ ports)) as [p|].
    - destruct (findHTTPPort ports false) as [idp found]. simpl in Hspec.
      subst idp. case_decide as Hempty; [| done].
      by destruct (Sprintf_d_nonempty (port_Port p)).
    - rewrite Hspec. simpl.
      destruct (decide (Exists _ ports));
        [rewrite bool_decide_eq_true_2 | rewrite bool_decide_eq_false_2]; done. }
  destruct (svc_Spec_Ports svc) as [|p [|q ports]]; [apply (Hloop []) | done |].
  apply (Hloop (p :: q :: ports)).
Qed.

(** ** What a dependencies annotation parses to *)

Lemma SplitN2_cut (c : ascii) (pre post : string) :
  hasByte c pre = false ->
  strings.SplitN2 (pre +:+ String c "" +:+ post) c = [pre; post].
Proof.
  change (String c "" +:+ post) with (String c post).
  induction pre as [|a pre IH]; simpl; intros Hno.
  - by case_decide.
  - apply orb_false_iff in Hno as [Hac%bool_decide_eq_false Hno].
    case_decide; [done |]. by rewrite IH.
Qed.

Lemma parseDependency_declared svc (d : string * string * string)
    (dependencies : list app) log :
  separable d ->
  parseDependency svc (declaredEntry d) (dependencies, log)
  = Ok (dependencies ++ option_list (declaredApp d),
        log ++ option_list (declaredError svc d)).
Proof.
  destruct d as [[kind namespace] name]. intros [Hkind Hns]. simpl in Hkind, Hns.
  unfold parseDependency, declaredApp, declaredError, appKindOfWord,
    declaredEntry, dependencyEntry. cbn [fst snd].
  case_decide as Hlen.
  { destruct kind; discriminate. }
  rewrite (SplitN2_cut ":" kind _ Hkind).
  cbn [index lookup list_lookup mbind result_bind].
  rewrite (SplitN2_cut "/" namespace _ Hns).
  cbn [index lookup list_lookup mbind result_bind].
  repeat case_decide; simpl; rewrite ?app_nil_r; try done; tauto.
Qed.

Lemma forM_parseDependency_declared svc (entries : list string)
    (deps : list (string * string * string)) (dependencies : list app) log :
  filter (fun entry => entry <> "") entries = declaredEntry <$> deps ->
  Forall separable deps ->
  forM (parseDependency svc) entries (dependencies, log)
  = Ok (dependencies ++ omap declaredApp deps,
        log ++ omap (declaredError svc) deps).
Proof.
  revert deps dependencies log.
  induction entries as [|entry entries IH]; intros deps dependencies log.
  - intros Hdeps _. symmetry in Hdeps. apply fmap_nil_inv in Hdeps as ->.
    simpl. by rewrite !app_nil_r.
  - rewrite filter_cons. destruct (decide (entry <> "")) as [Hentry | Hentry].
    + destruct deps as [|d deps]; [done |]. intros [= -> Hdeps].
      intros [Hd Hall]%Forall_cons. cbn [forM].
      rewrite (parseDependency_declared _ _ _ _ Hd). cbn [mbind result_bind].
      rewrite (IH _ _ _ Hdeps Hall). simpl.
      destruct (declaredApp d), (declaredError svc d); simpl;
        by rewrite <- ?app_assoc, ?app_nil_r.
    + apply dec_stable in Hentry as ->. intros Hdeps Hall. cbn [forM].
      change (parseDependency svc "" (dependencies, log))
        with (Ok (dependencies, log)).
      cbn [mbind result_bind]. by apply IH.
Qed.

(** When the entries of a dependencies annotation that are not empty are
    [<kind>:<namespace>/<name>], with no colon in the kind and no slash in
    the namespace, parsing returns, and what it returns is known: the
    entries whose kind reads deployment or statefulset, in any case of the
    letters, are the dependencies, in the order of the annotation, each
    with its kind, its namespace, and its name as name and service name;
    each entry of another kind is logged, with its kind and the entry, and
    left out; empty entries are passed over; the lines logged before are
    kept. *)
Theorem parseDependencies_declared svc (value : string)
    (deps : list (string * string * string)) log :
  nonEmptyEntries value = declaredEntry <$> deps ->
  Forall separable deps ->
  parseDependencies svc value log
  = Ok (omap declaredApp deps, log ++ omap (declaredError svc) deps).
Proof.
  intros Hdeps Hall. unfold parseDependencies.
  by rewrite (forM_parseDependency_declared _ _ _ _ _ Hdeps Hall).
Qed.

End host_index.

Section host_index_examples.

Import activator examples.

(** C3 fails on the code: an entry without a slash (or, for a valid kind,
    without a colon) passes the kind check and then reads [elems[1]] of a
    slice of length one.  A well-formed entry is parsed, an entry of another
    kind is logged and skipped, and the panic aborts [updateIndex] as a
    whole. *)
Theorem C3_malformed_dependency_panics :
  @parseDependencies plainEnv webService
     "deployment:default/db,cache:default/redis,StatefulSet:data/pg" []
  = Ok ([ mkApp "default" "db" "db" appKindDeployment [] None;
          mkApp "data" "pg" "pg" appKindStatefulSet [] None ],
        [ ErrInvalidAppKind "web" "default" "cache" "cache:default/redis" ])
  /\ @parseDependencies plainEnv webService "deployment:db" []
     = Panic "index out of range"
  /\ @parseDependencies plainEnv webService "deployment" []
     = Panic "index out of range"
  /\ updateIndex (cluster "deployment:db" [webService])
     = Panic "index out of range".
Proof. split_and!; vm_compute; reflexivity. Qed.

Lemma parseDependencies_declared_witness :
  nonEmptyEntries "deployment:default/db,,cache:default/redis,StatefulSet:data/pg"
  = declaredEntry <$> [ ("deployment", "default", "db");
                        ("cache", "default", "redis");
                        ("StatefulSet", "data", "pg") ]
  /\ @parseDependencies plainEnv webService
       "deployment:default/db,,cache:default/redis,StatefulSet:data/pg" []
     = Ok ([ mkApp "default" "db" "db" appKindDeployment [] None;
             mkApp "data" "pg" "pg" appKindStatefulSet [] None ],
           [ ErrInvalidAppKind "web" "default" "cache" "cache:default/redis" ]).
Proof.
  assert (nonEmptyEntries
            "deployment:default/db,,cache:default/redis,StatefulSet:data/pg"
          = declaredEntry <$> [ ("deployment", "default", "db");
                                ("cache", "default", "redis");
                                ("StatefulSet", "data", "pg") ]) as Hdeps
    by (vm_compute; reflexivity).
  split; [exact Hdeps |].
  refine (@parseDependencies_declared plainEnv webService _ _ [] Hdeps _).
  repeat constructor.
Defined.

Lemma C4_witness :
  match updateIndex (cluster "" [webService]) with
  | Ok (a', _) =>
    registered a' "web.default.svc.cluster.local:8080"
    /\ registered a' "10.0.0.7:8080"
    /\ registered a' "192.0.2.1:8080"
    /\ registered a' "lb.example.com:8080"
    /\ registered a' "example.com"
    /\ registered a' "node-1:30080"
  | Panic _ => False
  end.
Proof.
  destruct (updateIndex (cluster "" [webService])) as [[a' log]|msg] eqn:E;
    [| vm_compute in E; discriminate].
  pose (port := {| port_Name := "web"; port_Port := 8080; port_NodePort := 30080 |}).
  destruct (C4_hosts_registered (cluster "" [webService]) a' log webService port E)
    as (Hdns & [Hip _] & Hing & Hlb & Hhost & Hnode).
  - apply list_elem_of_here.
  - left. exists "web". split; [reflexivity | vm_compute; discriminate].
  - apply list_elem_of_here.
  - simpl. eauto.
  - split_and!.
    + apply (Hdns "web.default.svc.cluster.local").
      do 3 apply list_elem_of_further. apply list_elem_of_here.
    + exact Hip.
    + apply (Hing {| ingress_IP := "192.0.2.1" |}); [apply list_elem_of_here |].
      discriminate.
    + apply (Hlb "osiris.dm.gg/loadBalancerHostname" "lb.example.com");
        reflexivity.
    + apply (Hhost "osiris.dm.gg/ingressHostname" "example.com"); reflexivity.
    + apply (Hnode ltac:(discriminate) "node-1"). by apply elem_of_singleton.
Defined.

(** C4, as stated, fails: 8080 is the ingress default port of the service,
    and neither its DNS names nor its cluster IP are registered bare; the
    value of the [ingressHostname] annotation is not registered with the
    port as suffix. *)
Lemma C4_counterexample :
  ingressDefaultPortOf webService = "8080"
  /\ match updateIndex (cluster "" [webService]) with
     | Ok (a', _) =>
       ~ registered a' "web.default"
       /\ ~ registered a' "10.0.0.7"
       /\ ~ registered a' "example.com:8080"
     | Panic _ => False
     end.
Proof.
  split; [reflexivity |].
  destruct (updateIndex (cluster "" [webService])) as [[a' log]|msg] eqn:E;
    [| vm_compute in E; discriminate].
  vm_compute in E. injection E as <- _.
  split_and!; intros [x Hx]; vm_compute in Hx; discriminate.
Qed.

Lemma C10_witness :
  match updateIndex (withServices (cluster "" []) [webService; plainService]),
        updateIndex (withServices (cluster "" []) [webService]) with
  | Ok (a1, log1), Ok (a2, log2) => appsByHost a1 = appsByHost a2 /\ log1 = log2
  | Panic msg1, Panic msg2 => msg1 = msg2
  | _, _ => False
  end.
Proof.
  refine (proj2 (C10_unbound_service_registers_nothing
                   (cluster "" []) plainService [webService] [] _)).
  left. split; reflexivity.
Defined.

End host_index_examples.

(* ===================================================================== *)
(** * Part IX: scale-to-zero                                              *)
(* ===================================================================== *)

Section scale_to_zero.

Import zeroscaler.

Implicit Types (c : KubeClient) (trace new : list Event) (out : Outcome).

Lemma wellFormed_app evs1 evs2 :
  wellFormed evs1 -> wellFormed evs2 -> wellFormed (evs1 ++ evs2).
Proof.
  induction evs1 as [|e evs1 IH]; [done |].
  destruct e as [| r ns n ops [err|] | | | |]; simpl; try by auto.
  - intros (Hops & (kind & rest' & ->) & Hwf) H2. split_and!; [done | | auto].
    by exists kind, (rest' ++ evs2).
  - intros (Hops & _ & Hwf) H2. auto.
Qed.



Lemma patchTargets_app evs1 evs2 :
  patchTargets (evs1 ++ evs2) = patchTargets evs1 ++ patchTargets evs2.
Proof. apply omap_app. Qed.

(** The events of the function [scaleToZero]: one patch if the kind names a
    resource, none otherwise, whatever the API server answers. *)
Lemma scaleToZero_events c kind namespace name trace :
  exists new,
    scaleToZero c kind namespace name trace = trace ++ new
    /\ wellFormed new
    /\ patchTargets new
       = match resourceOfKind kind with
         | Some resource => [(resource, namespace, name)]
         | None => []
         end.
Proof.
  unfold scaleToZero. destruct (resourceOfKind kind) as [resource|].
  - destruct (Patch c _ resource namespace name _) as [e|] eqn:E.
    + eexists [_; _; _]. rewrite <- !app_assoc. simpl.
      split_and!; [done | | done]. split_and!; [done | eauto | done].
    + eexists [_; _; _]. rewrite <- !app_assoc. simpl.
      split_and!; done.
  - eexists [_; _]. rewrite <- !app_assoc. simpl. split_and!; done.
Qed.

Lemma scaleDependency_agree c1 c2 dependency t1 t2 :
  agree t1 t2 (scaleDependency c1 dependency t1)
              (scaleDependency c2 dependency t2).
Proof.
  unfold scaleDependency, agree. case_decide.
  { exists [], [], Returned. by rewrite !app_nil_r. }
  destruct (strings.SplitN2 dependency ":" !! 0%nat) as [depKind|];
    [| exists [], [], (Panicked "index out of range"); by rewrite !app_nil_r].
  destruct (strings.SplitN2 dependency ":" !! 1%nat) as [rest|];
    [| exists [], [], (Panicked "index out of range"); by rewrite !app_nil_r].
  destruct (strings.SplitN2 rest "/" !! 0%nat) as [depNamespace|];
    [| exists [], [], (Panicked "index out of range"); by rewrite !app_nil_r].
  destruct (strings.SplitN2 rest "/" !! 1%nat) as [depName|];
    [| exists [], [], (Panicked "index out of range"); by rewrite !app_nil_r].
  destruct (scaleToZero_events c1 depKind depNamespace depName t1)
    as (new1 & -> & Hwf1 & Hp1).
  destruct (scaleToZero_events c2 depKind depNamespace depName t2)
    as (new2 & -> & Hwf2 & Hp2).
  exists new1, new2, Returned. split_and!; try done. by rewrite Hp1, Hp2.
Qed.

Lemma scaleDependencies_agree c1 c2 dependencies t1 t2 :
  agree t1 t2 (scaleDependencies c1 dependencies t1)
              (scaleDependencies c2 dependencies t2).
Proof.
  revert t1 t2. induction dependencies as [|d ds IH]; intros t1 t2; simpl.
  { exists [], [], Returned. by rewrite !app_nil_r. }
  destruct (scaleDependency_agree c1 c2 d t1 t2)
    as (new1 & new2 & out & -> & -> & Hwf1 & Hwf2 & Hp).
  destruct out as [|msg].
  - destruct (IH (t1 ++ new1) (t2 ++ new2))
      as (more1 & more2 & out & -> & -> & Hwf1' & Hwf2' & Hp').
    exists (new1 ++ more1), (new2 ++ more2), out. rewrite !app_assoc.
    split_and!; try done; try by apply wellFormed_app.
    by rewrite !patchTargets_app, Hp, Hp'.
  - by exists new1, new2, (Panicked msg).
Qed.




End scale_to_zero.

(* ===================================================================== *)
(** * Part X: the collector loop                                          *)
(* ===================================================================== *)

Section collector.

Import zeroscaler.

Implicit Types (m : metricsCollector) (st : LoopState) (t : Tick)
  (trace new : list Event) (counts : gmap string Z).

Lemma recordScrape_flag scrapes counts flag :
  (foldl recordScrape (flag, counts) scrapes).1 = false ->
  flag = false /\ Forall (fun s => s.2 <> None) scrapes.
Proof.
  revert flag counts. induction scrapes as [|[pod [prc|]] scrapes IH];
    intros flag counts; simpl.
  - by intros ->.
  - intros [-> Hall]%IH. split; [done |]. by constructor.
  - by intros [[=] _]%IH.
Qed.

Lemma recordScrape_counts scrapes counts flag id :
  (foldl recordScrape (flag, counts) scrapes).2 !! id
  = match lastCount id scrapes with
    | Some n => Some n
    | None => counts !! id
    end.
Proof.
  revert flag counts. induction scrapes as [|s scrapes IH] using rev_ind;
    intros flag counts; [done |].
  rewrite foldl_app. simpl. unfold lastCount. rewrite omap_app. simpl.
  destruct (foldl recordScrape (flag, counts) scrapes) as [flag' counts'] eqn:E.
  specialize (IH flag counts). rewrite E in IH. simpl in IH.
  unfold recordScrape. destruct s as [pod [prc|]]; simpl.
  - case_decide as Hid.
    + subst id. by rewrite last_snoc, lookup_insert_eq.
    + rewrite app_nil_r, lookup_insert_ne by done. exact IH.
  - rewrite app_nil_r. exact IH.
Qed.

Lemma sumCounts_mod counts :
  sumCounts counts = foldr Z.add 0 (map_to_list counts).*2 mod 2 ^ 64.
Proof.
  unfold sumCounts. induction (map_to_list counts) as [|[id n] l IH]; [done |].
  simpl. rewrite IH. fold uint64_max. fold (wrap64 (foldr Z.add 0 l.*2)).
  rewrite wrap64_add_l. unfold wrap64. f_equal. apply Z.add_comm.
Qed.

Lemma tick_total m st t trace :
  totalRequestCount (tick m st t trace) = sumCounts (recorded st t).
Proof.
  unfold tick, recorded.
  destruct (foldl recordScrape _ _) as [flag counts]. simpl.
  tick_cases m trace; done.
Qed.

Lemma tick_nextState m st t trace st' :
  nextState (tick m st t trace) = Some st' ->
  requestCountsByProxy st' = recorded st t
  /\ lastTotalRequestCount st' = totalRequestCount (tick m st t trace).
Proof.
  unfold tick, recorded.
  destruct (foldl recordScrape _ _) as [flag counts]. simpl.
  tick_cases m trace; try done; by intros [= <-].
Qed.

(** A tick issues a patch only if no scrape returned nil, the timer did not
    fire, and the total the tick computed is [lastTotalRequestCount]. *)
Lemma tick_patch_only_when_idle m st t trace new :
  events (tick m st t trace) = trace ++ new ->
  patchTargets new <> [] ->
  Forall (fun s => s.2 <> None) (scrapes t)
  /\ timerFired t = false
  /\ totalRequestCount (tick m st t trace) = lastTotalRequestCount st.
Proof.
  intros Hev Hp.
  assert (events (tick m st t trace) <> trace) as Hmoved.
  { intros E. rewrite E in Hev. apply Hp.
    rewrite <- (app_nil_r trace) in Hev at 1.
    by apply app_inv_head in Hev as <-. }
  clear Hev Hp. revert Hmoved. rewrite tick_total. unfold tick, recorded.
  destruct (foldl recordScrape _ _) as [flag counts] eqn:Hfold. simpl.
  unfold selectCase.
  destruct (timerFired t), (ctxDone t), (selectsTimer t); simpl;
    try (intros Hm; by destruct Hm).
  all: destruct flag; simpl; [intros Hm; by destruct Hm |].
  all: case_bool_decide as Htotal; simpl; [| intros Hm; by destruct Hm].
  all: intros _; split_and!; [| done | done].
  all: pose proof (recordScrape_flag (scrapes t) (requestCountsByProxy st) false)
         as Hflag; rewrite Hfold in Hflag; by apply Hflag.
Qed.

(** The result of tick [i] of a run is the one of [tick] on the variables
    and the events the tick before left, or on those the run starts with. *)
Lemma collectMetricsFrom_lookup m st (ticks : list Tick) trace (i : nat) t
    (r : TickResult) :
  ticks !! i = Some t ->
  collectMetricsFrom m st ticks trace !! i = Some r ->
  exists st_i trace_i,
    r = tick m st_i t trace_i
    /\ match i with
       | O => st_i = st /\ trace_i = trace
       | S j =>
         exists prev,
           collectMetricsFrom m st ticks trace !! j = Some prev
           /\ lastTotalRequestCount st_i = totalRequestCount prev
           /\ trace_i = events prev
       end.
Proof.
  revert st trace i. induction ticks as [|t0 ticks IH]; intros st trace i;
    [done |].
  destruct i as [|j]; cbn [collectMetricsFrom].
  - intros [= ->] [= <-]. by exists st, trace.
  - intros Ht. change ((t0 :: ticks) !! S j) with (ticks !! j) in Ht.
    destruct (nextState (tick m st t0 trace)) as [st'|] eqn:Hnext; [| done].
    intros Hr.
    change (collectMetricsFrom m st' ticks (events (tick m st t0 trace)) !! j
            = Some r) in Hr.
    destruct (IH _ _ _ Ht Hr) as (st_i & trace_i & -> & Hprev).
    exists st_i, trace_i. split; [done |].
    destruct j as [|k].
    + destruct Hprev as [-> ->]. exists (tick m st t0 trace).
      split_and!; [done | | done].
      by apply tick_nextState in Hnext as [_ ?].
    + destruct Hprev as (prev & Hprev & Hlast & Hevents).
      by exists prev.
Qed.

(** C1, as amended: over a run of [collectMetrics], a tick issues a patch
    only if no scrape of the tick returned nil, the timer did not fire, and
    the total the tick computed is the total of the tick before or, on the
    first tick of the loop, which has no tick before it, zero, the value
    [lastTotalRequestCount] starts with. *)
Theorem C1_patch_only_when_idle m (ticks : list Tick) (i : nat) t
    (r : TickResult) new :
  ticks !! i = Some t ->
  collectMetrics m ticks !! i = Some r ->
  events r = eventsBefore (collectMetrics m ticks) i ++ new ->
  patchTargets new <> [] ->
  Forall (fun s => s.2 <> None) (scrapes t)
  /\ timerFired t = false
  /\ (previousTotal (collectMetrics m ticks) i = Some (totalRequestCount r)
      \/ (i = 0%nat /\ totalRequestCount r = 0)).
Proof.
  intros Ht Hr Hev Hp. unfold collectMetrics in *.
  destruct (collectMetricsFrom_lookup _ _ _ _ _ _ _ Ht Hr)
    as (st_i & trace_i & -> & Hprev).
  destruct i as [|j].
  - destruct Hprev as [-> ->]. simpl in Hev.
    destruct (tick_patch_only_when_idle _ _ _ _ _ Hev Hp)
      as (Hall & Htimer & Htotal).
    split_and!; [done | done |]. right. by rewrite Htotal.
  - destruct Hprev as (prev & Hprev & Hlast & ->).
    unfold eventsBefore, previousTotal in *. rewrite Hprev in *. simpl in Hev.
    destruct (tick_patch_only_when_idle _ _ _ _ _ Hev Hp)
      as (Hall & Htimer & Htotal).
    split_and!; [done | done |]. left. simpl. by rewrite Htotal, Hlast.
Qed.

(** C2, as amended: the total a tick computes is the sum, modulo 2^64, of
    the counts by proxy once the scrapes of the tick are recorded; these are
    the variable the loop keeps from tick to tick, in which each successful
    scrape of the tick has overwritten the count of its proxy, so that a
    proxy not scraped in the tick contributes the count recorded for it on
    an earlier tick. *)
Theorem C2_total_sums_recorded_counts m st t trace :
  totalRequestCount (tick m st t trace)
  = foldr Z.add 0 (map_to_list (recorded st t)).*2 mod 2 ^ 64
  /\ (forall id,
       recorded st t !! id
       = match lastCount id (scrapes t) with
         | Some n => Some n
         | None => requestCountsByProxy st !! id
         end)
  /\ (forall st', nextState (tick m st t trace) = Some st' ->
                  requestCountsByProxy st' = recorded st t).
Proof.
  split_and!.
  - by rewrite tick_total, sumCounts_mod.
  - intros id. apply recordScrape_counts.
  - intros st' Hnext. by apply tick_nextState in Hnext as [? _].
Qed.

End collector.

Section collector_runs.

Import zeroscaler collector_examples.

(** Two pods report 17 and 5 on a tick, and the same on the next one: the
    second tick scales to zero, the main workload first. *)
Example idle_detection :
  (fun r => (totalRequestCount r, patchTargets (events r)))
    <$> collectMetrics (collector accepting)
          [ quiet [scrapeOf "pod-a" "A" 17; scrapeOf "pod-b" "B" 5];
            quiet [scrapeOf "pod-b" "B" 5; scrapeOf "pod-a" "A" 17] ]
  = [ (22, []);
      (22, [(Deployments, "ns", "app"); (Deployments, "ns", "db")]) ].
Proof. vm_compute. reflexivity. Qed.

(** The same with a scrape that fails on the second tick: no patch. *)
Example failed_scrape_decides_nothing :
  (fun r => (totalRequestCount r, patchTargets (events r)))
    <$> collectMetrics (collector accepting)
          [ quiet [scrapeOf "pod-a" "A" 17; scrapeOf "pod-b" "B" 5];
            quiet [scrapeOf "pod-a" "A" 17; ("pod-b", None)] ]
  = [ (22, []); (22, []) ].
Proof. vm_compute. reflexivity. Qed.

(** The patches of the dependencies follow the one of the main workload
    also when every patch is refused. *)
Example refused_patches_keep_the_order :
  metricsCollector_scaleToZero (collector refusing) []
  = ([ InfoScaleStarting "Deployment" "app" "ns";
       PatchCall Deployments "ns" "app" replaceReplicasWithZero (Some "forbidden");
       ErrorScaling "Deployment" "app" "ns" "forbidden";
       GetCall Deployments "ns" "app";
       InfoScaleStarting "deployment" "db" "ns";
       PatchCall Deployments "ns" "db" replaceReplicasWithZero (Some "forbidden");
       ErrorScaling "deployment" "db" "ns" "forbidden" ],
     Returned).
Proof. vm_compute. reflexivity. Qed.

Lemma C1_witness :
  patchTargets (events (tick (collector accepting) seenBefore bothPods [])) <> []
  /\ Forall (fun s => s.2 <> None) (scrapes bothPods)
  /\ timerFired bothPods = false
  /\ previousTotal (collectMetrics (collector accepting) [bothPods; bothPods]) 1
     = Some 22
  /\ totalRequestCount (tick (collector accepting) seenBefore bothPods []) = 22.
Proof.
  assert (patchTargets (events (tick (collector accepting) seenBefore bothPods []))
          <> []) as Hpatched by (vm_compute; discriminate).
  split; [exact Hpatched |].
  destruct (C1_patch_only_when_idle (collector accepting) [bothPods; bothPods] 1
              bothPods (tick (collector accepting) seenBefore bothPods [])
              (events (tick (collector accepting) seenBefore bothPods [])))
    as (Hall & Htimer & [Hprevious | [Hfirst _]]).
  - reflexivity.
  - vm_compute. reflexivity.
  - vm_compute. reflexivity.
  - exact Hpatched.
  - split_and!; [exact Hall | exact Htimer | | vm_compute; reflexivity].
    rewrite Hprevious. vm_compute. reflexivity.
  - discriminate Hfirst.
Defined.

(** C1, as stated, fails on the first tick of the loop: the proxy of an
    application nobody has called yet reports 0, the tick computes 0, which
    is the value [lastTotalRequestCount] starts with, and the application is
    scaled to zero although no tick came before. *)
Lemma C1_counterexample :
  match collectMetrics (collector accepting) [quiet [scrapeOf "pod-a" "A" 0]] with
  | [first] =>
    patchTargets (events first)
    = [(Deployments, "ns", "app"); (Deployments, "ns", "db")]
    /\ previousTotal
         (collectMetrics (collector accepting) [quiet [scrapeOf "pod-a" "A" 0]]) 0
       = None
  | _ => False
  end.
Proof. vm_compute. split; reflexivity. Qed.


(** C2, as stated, fails: the pod of proxy A, which counted 5 requests, is
    replaced by the pod of proxy B, which has counted 3.  The second tick
    scrapes B alone and computes 8: the count of A, not scraped in that
    tick, contributes. *)
Lemma C2_counterexample :
  match collectMetrics (collector accepting) [beforeRestart; afterRestart] with
  | [first; second] =>
    totalRequestCount first = 5
    /\ totalRequestCount second = 8
    /\ sumOfScrapes afterRestart = 3
    /\ totalRequestCount second <> sumOfScrapes afterRestart
  | _ => False
  end.
Proof. vm_compute. split_and!; try reflexivity. discriminate. Qed.

End collector_runs.

(* ===================================================================== *)
(** * Part XI: more about the proxy counter                               *)
(* ===================================================================== *)

Section counter_order.

Import proxy.

Implicit Types (s : singlePortProxy) (r : Request) (rs : list Request).

Lemma serve_app s rs more (c : Z) :
  serve s (rs ++ more) c = serve s more (serve s rs c).
Proof. unfold serve. apply foldl_app. Qed.

Lemma length_counted s rs : (length (counted s rs) <= length rs)%nat.
Proof. unfold counted. apply length_filter. Qed.

(** The counter does not depend on the order in which the requests are
    handled: any two interleavings of the same requests leave the same
    count. *)
Theorem serve_any_interleaving s rs rs' (initial : Z) :
  is_uint64 initial -> rs ≡ₚ rs' -> serve s rs initial = serve s rs' initial.
Proof.
  intros Hinit Hperm. rewrite !serve_counts by done.
  unfold counted. by rewrite Hperm.
Qed.

Lemma serve_any_interleaving_witness :
  is_uint64 0
  /\ [probe; getOf "/api"; getOf "/metrics"] ≡ₚ [getOf "/metrics"; probe; getOf "/api"]
  /\ serve metricsIgnored [probe; getOf "/api"; getOf "/metrics"] 0
     = serve metricsIgnored [getOf "/metrics"; probe; getOf "/api"] 0.
Proof.
  assert (is_uint64 0) as H0 by (unfold is_uint64, uint64_max; lia).
  assert ([probe; getOf "/api"; getOf "/metrics"]
          ≡ₚ [getOf "/metrics"; probe; getOf "/api"]) as Hperm.
  { symmetry.
    exact (Permutation_cons_append [probe; getOf "/api"] (getOf "/metrics")). }
  split_and!; [exact H0 | exact Hperm |].
  exact (serve_any_interleaving metricsIgnored _ _ 0 H0 Hperm).
Defined.

(** As long as the counter cannot overflow (its initial value plus the
    number of requests stays below 2^64) it never decreases while requests
    arrive, and it grows by at most one per request. *)
Theorem serve_monotone_below_overflow s rs more (initial : Z) :
  is_uint64 initial ->
  initial + Z.of_nat (length (rs ++ more)) < 2 ^ 64 ->
  initial <= serve s rs initial
  /\ serve s rs initial <= serve s (rs ++ more) initial
  /\ serve s (rs ++ more) initial <= initial + Z.of_nat (length (rs ++ more)).
Proof.
  intros Hinit Hroom. pose proof Hinit as [Hlo Hhi].
  rewrite length_app in Hroom.
  pose proof (length_counted s rs) as Hrs.
  pose proof (length_counted s more) as Hmore.
  assert (forall n, 0 <= n -> initial + n < 2 ^ 64 -> wrap64 (initial + n) = initial + n)
    as Hsmall.
  { intros n Hn Hlt. apply wrap64_small. unfold is_uint64, uint64_max. lia. }
  rewrite !serve_counts by done. unfold counted.
  rewrite filter_app, !length_app. fold (counted s rs) (counted s more).
  rewrite !Hsmall by lia. lia.
Qed.

Lemma serve_monotone_below_overflow_witness :
  is_uint64 41
  /\ 41 <= serve metricsIgnored [probe; getOf "/api"] 41
  /\ serve metricsIgnored [probe; getOf "/api"] 41
     <= serve metricsIgnored ([probe; getOf "/api"] ++ [getOf "/"; getOf "/metrics"]) 41
  /\ serve metricsIgnored ([probe; getOf "/api"] ++ [getOf "/"; getOf "/metrics"]) 41
     <= 45.
Proof.
  assert (is_uint64 41) as H41 by (unfold is_uint64, uint64_max; lia).
  split; [exact H41 |].
  apply (serve_monotone_below_overflow metricsIgnored
           [probe; getOf "/api"] [getOf "/"; getOf "/metrics"] 41 H41).
  simpl. lia.
Defined.

End counter_order.

(* ===================================================================== *)
(** * Part XII: more about annotation value cleaning                      *)
(* ===================================================================== *)

Section cleaning_more.

Import activator.

Implicit Types (s r l x y : string).

Lemma app_assoc_string s r l : (s +:+ r) +:+ l = s +:+ (r +:+ l).
Proof.
  induction s as [|a s IH]; [done |]. by rewrite !app_String, IH.
Qed.

Lemma app_empty_right s : s +:+ "" = s.
Proof. induction s as [|a s IH]; [done |]. by rewrite app_String, IH. Qed.

Lemma stripSpaces_suffix_fuel back (n : nat) s :
  (String.length s <= n)%nat -> exists pre, s = pre +:+ strings.stripSpaces back s.
Proof.
  revert s. induction n as [|n IH]; intros s Hn.
  { destruct s; simpl in *; [by exists "" | lia]. }
  destruct s as [|a [|b [|c s3]]]; simpl in *.
  - by exists "".
  - destruct (strings.isAsciiSpace a); [by exists (String a "") | by exists ""].
  - destruct (IH (String b "") ltac:(simpl; lia)) as [pre1 Hpre1].
    simpl in Hpre1.
    destruct (strings.isAsciiSpace a).
    { exists (String a pre1). by rewrite app_String, <- Hpre1. }
    destruct (if back then strings.isSpace2 b a else strings.isSpace2 a b);
      [by exists (String a (String b "")) | by exists ""].
  - destruct (IH (String b (String c s3)) ltac:(simpl; lia)) as [pre1 Hpre1].
    destruct (IH (String c s3) ltac:(simpl; lia)) as [pre2 Hpre2].
    destruct (IH s3 ltac:(lia)) as [pre3 Hpre3]. simpl in Hpre1, Hpre2.
    destruct (strings.isAsciiSpace a).
    { exists (String a pre1). by rewrite app_String, <- Hpre1. }
    destruct (if back then strings.isSpace2 b a else strings.isSpace2 a b).
    { exists (String a (String b pre2)). by rewrite !app_String, <- Hpre2. }
    destruct (if back then strings.isSpace3 c b a else strings.isSpace3 a b c).
    { exists (String a (String b (String c pre3))).
      by rewrite !app_String, <- Hpre3. }
    by exists "".
Qed.

Lemma stripSpaces_suffix back s :
  exists pre, s = pre +:+ strings.stripSpaces back s.
Proof. by apply (stripSpaces_suffix_fuel back (String.length s)). Qed.

Lemma rev_app_acc s acc : String.rev_app s acc = String.rev s +:+ acc.
Proof.
  revert acc. induction s as [|a s IH]; intros acc; [done |].
  unfold String.rev. simpl. rewrite (IH (String a acc)), (IH (String a "")).
  by rewrite app_assoc_string.
Qed.

Lemma rev_app_string s r : String.rev (s +:+ r) = String.rev r +:+ String.rev s.
Proof.
  induction s as [|a s IH].
  - by rewrite app_empty_l, app_empty_right.
  - rewrite app_String. unfold String.rev at 1 3. simpl.
    rewrite !rev_app_acc, IH. by rewrite app_assoc_string.
Qed.

(** Trimming the white space keeps a contiguous piece of the string. *)
Lemma TrimSpace_infix s :
  exists pre post, s = pre +:+ strings.TrimSpace s +:+ post.
Proof.
  unfold strings.TrimSpace.
  destruct (stripSpaces_suffix false s) as [pre Hpre].
  destruct (stripSpaces_suffix true (String.rev (strings.stripSpaces false s)))
    as [post Hpost].
  exists pre, (String.rev post).
  rewrite <- rev_app_string, <- Hpost, rev_involutive. exact Hpre.
Qed.

(** Cleaning only cuts at the two ends: the cleaned value is a contiguous
    piece of the raw value, whose characters it neither changes nor
    reorders. *)
Theorem clean_is_a_piece_of_the_raw_value x :
  exists pre post, x = pre +:+ cleanAnnotationValue x +:+ post.
Proof.
  destruct (TrimSpace_infix x) as (pre & post & Hx).
  destruct (TrimLeft_split (strings.TrimSpace x) strings.quote) as [m Hm].
  destruct (TrimRight_split
              (strings.TrimLeft (strings.TrimSpace x) strings.quote)
              strings.quote) as [n Hn].
  exists (pre +:+ repeatByte m strings.quote), (repeatByte n strings.quote +:+ post).
  unfold cleanAnnotationValue.
  rewrite Hx at 1. rewrite Hm at 1. rewrite Hn at 1.
  by rewrite !app_assoc_string.
Qed.

(** The values cleaning leaves as they are: exactly those with no white
    space and no single quote at either end. *)
Theorem clean_fixed_points y :
  cleanAnnotationValue y = y
  <-> strings.TrimSpace y = y
      /\ (forall r, y <> String "'" r)
      /\ (forall l, y <> l +:+ "'").
Proof.
  split.
  - intros Hfix. split_and!.
    + by apply clean_fixed_is_trimmed.
    + rewrite <- Hfix. apply clean_noLeading.
    + rewrite <- Hfix. apply clean_noTrailing.
  - intros (Hsp & Hl & Ht). by apply clean_of_trimmed.
Qed.

End cleaning_more.

(* ===================================================================== *)
(** * Part XIII: more about the host index                                *)
(* ===================================================================== *)

Section host_index_more.

Import activator.
Context `{Env}.

Implicit Types (a : activator) (svc : Service) (port : ServicePort)
  (m : gmap string app) (h : string) (log : list LogEntry).

(** An entry built from a kind, a namespace and a name parses back to
    them: the kind is read without regard to case, the name is also the
    service name, and an entry of any other kind is logged and left out. *)
Theorem parseDependency_round_trip svc (kind namespace name : string)
    (dependencies : list app) log :
  hasByte ":" kind = false -> hasByte "/" namespace = false ->
  parseDependency svc (dependencyEntry kind namespace name) (dependencies, log)
  = Ok (if decide (strings.ToLower kind = "deployment") then
          (dependencies
             ++ [mkApp namespace name name appKindDeployment [] None], log)
        else if decide (strings.ToLower kind = "statefulset") then
          (dependencies
             ++ [mkApp namespace name name appKindStatefulSet [] None], log)
        else
          (dependencies,
           log ++ [ErrInvalidAppKind (svc_Name svc) (svc_Namespace svc) kind
                                     (dependencyEntry kind namespace name)])).
Proof.
  intros Hkind Hns. unfold parseDependency, dependencyEntry.
  case_decide as Hlen.
  { destruct kind; discriminate. }
  rewrite (SplitN2_cut ":" kind _ Hkind).
  cbn [index lookup list_lookup mbind result_bind].
  rewrite (SplitN2_cut "/" namespace _ Hns).
  cbn [index lookup list_lookup mbind result_bind].
  repeat case_decide; try done; tauto.
Qed.

(** ** Every entry of the index has a service and a port behind it *)

Lemma assignAll_lookup hosts (ap : app) m h x :
  assignAll hosts ap m !! h = Some x ->
  (h ∈ hosts /\ x = ap) \/ m !! h = Some x.
Proof.
  revert m. induction hosts as [|host hosts IH]; intros m; simpl; [by right |].
  intros [[Hin ->] | Hm]%IH.
  - left. split; [by right | done].
  - destruct (decide (host = h)) as [-> | Hne].
    + rewrite lookup_insert_eq in Hm. injection Hm as <-.
      left. split; [by left | done].
    + rewrite lookup_insert_ne in Hm by done. by right.
Qed.

Lemma assignAll_lookup_in hosts (ap : app) m h :
  h ∈ hosts -> assignAll hosts ap m !! h = Some ap.
Proof.
  revert m. induction hosts as [|host hosts IH] using rev_ind; intros m Hin.
  - by apply elem_of_nil in Hin.
  - unfold assignAll. rewrite foldl_app. simpl.
    destruct (decide (host = h)) as [-> | Hne].
    + by rewrite lookup_insert_eq.
    + rewrite lookup_insert_ne by done. apply IH.
      apply elem_of_app in Hin as [Hin | Hin%list_elem_of_singleton]; done.
Qed.

Lemma assignAll_lookup_notin hosts (ap : app) m h :
  h ∉ hosts -> assignAll hosts ap m !! h = m !! h.
Proof.
  revert m. induction hosts as [|host hosts IH]; intros m Hnotin; [done |].
  apply not_elem_of_cons in Hnotin as [Hne Hnotin]. simpl.
  rewrite IH by done. by rewrite lookup_insert_ne.
Qed.

Lemma justified_mono a svcs svcs' m :
  (forall svc, svc ∈ svcs -> svc ∈ svcs') -> justified a svcs m -> justified a svcs' m.
Proof.
  intros Hsub Hj h x Hm. destruct (Hj h x Hm) as (svc & port & ? & ? & ?).
  exists svc, port. auto.
Qed.

(** The ports of [svc] indexed so far are among [seen]. *)
Lemma indexPorts_justified a svcs svc name kind value dependencies log0 log0'
    (ports : list ServicePort) st :
  svc ∈ svcs ->
  serviceBinding a svc = (name, kind, value) -> name <> "" ->
  parseDependencies svc value log0 = Ok (dependencies, log0') ->
  (forall port, port ∈ ports -> port ∈ svc_Spec_Ports svc) ->
  justified a svcs st.1 ->
  justified a svcs
    (foldl (indexPort a svc name kind dependencies (ingressDefaultPortOf svc))
           st ports).1.
Proof.
  intros Hsvc Hbind Hname Hdeps. revert st.
  induction ports as [|port ports IH]; intros st Hports Hj; [done |].
  simpl. apply IH.
  { intros q Hq. apply Hports. by right. }
  destruct st as [m log]. unfold indexPort.
  destruct (url_Parse _) as [targetURL|] eqn:Hurl; [| done].
  intros h x [[Hin ->] | Hm]%assignAll_lookup; [| by apply Hj].
  exists svc, port. split_and!; [done | apply Hports; by left |].
  by exists name, kind, value, dependencies, log0, log0', targetURL.
Qed.

Lemma indexService_justified a svcs svc st st' :
  svc ∈ svcs -> indexService a svc st = Ok st' ->
  justified a svcs st.1 -> justified a svcs st'.1.
Proof.
  intros Hsvc. unfold indexService.
  destruct (serviceBinding a svc) as [[name kind] value] eqn:Hbind.
  case_decide as Hlen; [by intros [= <-] |].
  destruct (parseDependencies svc value st.2) as [[dependencies log]|msg] eqn:Hdeps;
    [| done].
  cbn [mbind result_bind]. intros [= <-] Hj.
  eapply (indexPorts_justified a svcs svc name kind value dependencies st.2 log
            (svc_Spec_Ports svc) (st.1, log)); try done.
  intros ->. by apply Hlen.
Qed.

Lemma indexServices_justified a svcs (todo : list Service) st st' :
  (forall svc, svc ∈ todo -> svc ∈ svcs) ->
  forM (indexService a) todo st = Ok st' ->
  justified a svcs st.1 -> justified a svcs st'.1.
Proof.
  revert st. induction todo as [|svc todo IH]; intros st Hsub; simpl.
  - by intros [= <-].
  - destruct (indexService a svc st) as [st1|msg] eqn:E; [| done].
    cbn [mbind result_bind]. intros Hok Hj.
    apply (IH st1); [intros s Hs; apply Hsub; by right | done |].
    eapply indexService_justified; [apply Hsub; by left | done | done].
Qed.

Lemma updateIndex_sound_lemma a a' log h (x : app) :
  updateIndex a = Ok (a', log) ->
  appsByHost a' !! h = Some x ->
  exists svc port,
    svc ∈ services a /\ port ∈ svc_Spec_Ports svc /\ assignedFor a svc port h x.
Proof.
  unfold updateIndex.
  destruct (forM (indexService a) (services a) (∅, [])) as [[m l]|msg] eqn:E;
    [| done].
  cbn [mbind result_bind]. intros [= <- <-]. simpl.
  apply (indexServices_justified a (services a) (services a) (∅, []) (m, l));
    [done | done |].
  intros h' x' Hempty. simpl in Hempty. by rewrite lookup_empty in Hempty.
Qed.

(** The index [updateIndex] publishes holds nothing but what it assigned:
    every key is one of the hosts of a port of a service of [services]
    whose annotation names a workload and whose target URL parses, and the
    app under the key carries the namespace and name of that service, the
    name and kind of the workload, its parsed dependencies and the target
    URL of that port.  In particular nothing of the index that was
    published before survives on its own. *)
Theorem updateIndex_sound a a' log h (x : app) :
  updateIndex a = Ok (a', log) ->
  appsByHost a' !! h = Some x ->
  exists svc port,
    svc ∈ services a /\ port ∈ svc_Spec_Ports svc /\ assignedFor a svc port h x.
Proof. apply updateIndex_sound_lemma. Qed.

(** ** What a key looks like *)

Lemma portHosts_cases (nodes : gset string) svc (idp : string) port h :
  h ∈ portHosts nodes svc idp port ->
  (exists host, host ∈ addressed svc /\ h = hostPort host (port_Port port))
  \/ (port_Port port = 80 /\ h ∈ addressed svc)
  \/ (fmt.Sprintf_d (port_Port port) = idp
      /\ h ∈ annotatedHostnames ingressHostnameAnnotationRegex_MatchString svc)
  \/ (port_NodePort port <> 0
      /\ exists nodeAddress,
           nodeAddress ∈ nodes /\ h = hostPort nodeAddress (port_NodePort port)).
Proof.
  unfold portHosts. rewrite !elem_of_app.
  intros [H80 | [Hdefault | [Hdns | [Hip | [Hing | [Hnode | Hlb]]]]]].
  - case_decide; [| by apply elem_of_nil in H80]. right. left. by split.
  - case_decide; [| by apply elem_of_nil in Hdefault]. right. right. by left.
  - apply list_elem_of_fmap in Hdns as (host & -> & Hin). left. exists host.
    split; [| done]. unfold addressed. rewrite !elem_of_app. by left.
  - apply list_elem_of_singleton in Hip as ->. left.
    exists (svc_Spec_ClusterIP svc). split; [| done].
    unfold addressed. rewrite !elem_of_app.
    right. left. by apply list_elem_of_singleton.
  - apply list_elem_of_fmap in Hing as (host & -> & Hin). left. exists host.
    split; [| done]. unfold addressed. rewrite !elem_of_app. right. right. by left.
  - case_decide; [| by apply elem_of_nil in Hnode].
    apply list_elem_of_fmap in Hnode as (node & -> & Hin%elem_of_elements).
    do 3 right. split; [done |]. by exists node.
  - apply list_elem_of_fmap in Hlb as (host & -> & Hin). left. exists host.
    split; [| done]. unfold addressed. rewrite !elem_of_app. by do 3 right.
Qed.

(** Every key of the index [updateIndex] publishes was formed for a port
    of a service of [services], and the app under it targets that port.
    The key is a DNS name, the cluster IP, a load-balancer ingress IP or a
    [loadBalancerHostname] value of the service followed by the port; or
    one of these bare, and then the port is 80; or an [ingressHostname]
    value, bare, and then the port is the ingress default port; or a node
    address followed by the node port of the port, which is not zero. *)
Theorem index_keys_classified a a' log h (x : app) :
  updateIndex a = Ok (a', log) ->
  appsByHost a' !! h = Some x ->
  exists svc port,
    svc ∈ services a /\ port ∈ svc_Spec_Ports svc
    /\ TargetURL x
       = url_Parse ("http://" +:+ hostPort (svc_Spec_ClusterIP svc) (port_Port port))
    /\ ((exists host, host ∈ addressed svc /\ h = hostPort host (port_Port port))
        \/ (port_Port port = 80 /\ h ∈ addressed svc)
        \/ (fmt.Sprintf_d (port_Port port) = ingressDefaultPortOf svc
            /\ h ∈ annotatedHostnames ingressHostnameAnnotationRegex_MatchString svc)
        \/ (port_NodePort port <> 0
            /\ exists nodeAddress,
                 nodeAddress ∈ nodeAddresses a
                 /\ h = hostPort nodeAddress (port_NodePort port))).
Proof.
  intros Hok Hx.
  destruct (updateIndex_sound_lemma a a' log h x Hok Hx)
    as (svc & port & Hsvc & Hport & name & kind & value & deps & l0 & l1 & u
        & _ & _ & _ & Hurl & Hin & ->).
  exists svc, port. split_and!; [done | done | by rewrite Hurl |].
  by apply portHosts_cases.
Qed.

(** ** The last writer wins *)

Lemma indexPort_notin a svc name kind deps idp st port h :
  h ∉ portHosts (nodeAddresses a) svc idp port ->
  (indexPort a svc name kind deps idp st port).1 !! h = st.1 !! h.
Proof.
  destruct st as [m log]. unfold indexPort. intros Hnotin.
  destruct (url_Parse _); simpl; [by apply assignAll_lookup_notin | done].
Qed.

Lemma indexPorts_notin a svc name kind deps idp (ports : list ServicePort) st h :
  (forall q, q ∈ ports -> h ∉ portHosts (nodeAddresses a) svc idp q) ->
  (foldl (indexPort a svc name kind deps idp) st ports).1 !! h = st.1 !! h.
Proof.
  revert st. induction ports as [|q ports IH]; intros st Hnotin; [done |].
  simpl. rewrite IH by (intros q' Hq'; apply Hnotin; by right).
  apply indexPort_notin, Hnotin. by left.
Qed.

Lemma indexService_notin a svc st st' h :
  indexService a svc st = Ok st' ->
  (forall q, q ∈ svc_Spec_Ports svc ->
             h ∉ portHosts (nodeAddresses a) svc (ingressDefaultPortOf svc) q) ->
  st'.1 !! h = st.1 !! h.
Proof.
  unfold indexService.
  destruct (serviceBinding a svc) as [[name kind] value].
  case_decide; [by intros [= <-] |].
  destruct (parseDependencies svc value st.2) as [[dependencies log]|msg];
    [| done].
  cbn [mbind result_bind]. intros [= <-] Hnotin.
  by rewrite indexPorts_notin.
Qed.

Lemma indexServices_notin a (svcs : list Service) st st' h :
  forM (indexService a) svcs st = Ok st' ->
  (forall s q, s ∈ svcs -> q ∈ svc_Spec_Ports s ->
               h ∉ portHosts (nodeAddresses a) s (ingressDefaultPortOf s) q) ->
  st'.1 !! h = st.1 !! h.
Proof.
  revert st. induction svcs as [|s svcs IH]; intros st; simpl.
  - by intros [= <-].
  - destruct (indexService a s st) as [st1|msg] eqn:E; [| done].
    cbn [mbind result_bind]. intros Hok Hnotin.
    rewrite (IH st1) by (try done; intros s' q Hs'; apply Hnotin; by right).
    eapply indexService_notin; [done |].
    intros q Hq. apply Hnotin; [by left | done].
Qed.

(** When several ports or services claim a host, the one [updateIndex]
    visits last wins: a host of a port is mapped to the app of that port
    if no later port of the service and no port of a later service has the
    host among its own. *)
Theorem updateIndex_last_writer_wins a a' log
    (before after : list Service) svc (ports later : list ServicePort) port
    h (targetURL : URL) :
  updateIndex a = Ok (a', log) ->
  services a = before ++ svc :: after ->
  svc_Spec_Ports svc = ports ++ port :: later ->
  (serviceBinding a svc).1.1 <> "" ->
  url_Parse ("http://" +:+ hostPort (svc_Spec_ClusterIP svc) (port_Port port))
  = Some targetURL ->
  h ∈ portHosts (nodeAddresses a) svc (ingressDefaultPortOf svc) port ->
  (forall q, q ∈ later ->
             h ∉ portHosts (nodeAddresses a) svc (ingressDefaultPortOf svc) q) ->
  (forall s q, s ∈ after -> q ∈ svc_Spec_Ports s ->
               h ∉ portHosts (nodeAddresses a) s (ingressDefaultPortOf s) q) ->
  exists dependencies,
    appsByHost a' !! h
    = Some (mkApp (svc_Namespace svc) (svc_Name svc)
                  (serviceBinding a svc).1.1 (serviceBinding a svc).1.2
                  dependencies (Some targetURL))
    /\ exists log0 log1,
         parseDependencies svc (serviceBinding a svc).2 log0
         = Ok (dependencies, log1).
Proof.
  intros Hok Hsvcs Hports Hname Hurl Hin Hlater Hafter.
  unfold updateIndex in Hok. rewrite Hsvcs, forM_app in Hok.
  destruct (forM (indexService a) before (∅, [])) as [st0|msg] eqn:E0;
    [| done].
  cbn [mbind result_bind forM] in Hok.
  destruct (indexService a svc st0) as [st1|msg] eqn:E1; [| done].
  cbn [mbind result_bind] in Hok.
  destruct (forM (indexService a) after st1) as [[m l]|msg] eqn:E2; [| done].
  cbn [mbind result_bind] in Hok. injection Hok as <- <-. simpl.
  pose proof (indexServices_notin a after st1 (m, l) h E2 Hafter) as Hkeep.
  simpl in Hkeep. rewrite Hkeep. clear Hkeep.
  unfold indexService in E1.
  destruct (serviceBinding a svc) as [[name kind] value]. simpl in Hname |- *.
  case_decide as Hlen; [by destruct name |].
  destruct (parseDependencies svc value st0.2) as [[dependencies log']|msg] eqn:Hdeps;
    [| done].
  cbn [mbind result_bind] in E1. injection E1 as <-.
  exists dependencies. split; [| by exists st0.2, log'].
  rewrite Hports, foldl_app. simpl.
  rewrite indexPorts_notin by done.
  destruct (foldl _ (st0.1, log') ports) as [m0 log0].
  unfold indexPort. rewrite Hurl. simpl.
  by apply assignAll_lookup_in.
Qed.

End host_index_more.

Section host_index_more_examples.

Import activator examples.

Lemma parseDependency_round_trip_witness :
  @parseDependency plainEnv webService
     (dependencyEntry "StatefulSet" "data" "pg") ([], [])
  = Ok ([mkApp "data" "pg" "pg" appKindStatefulSet [] None], []).
Proof.
  exact (@parseDependency_round_trip plainEnv webService
           "StatefulSet" "data" "pg" [] [] eq_refl eq_refl).
Defined.

(** Index a service on which 8080 is assigned both as a port and, through
    [ingressHostname], bare. *)
Lemma updateIndex_sound_witness :
  match updateIndex (cluster "" [webService]) with
  | Ok (a', _) =>
    exists x, appsByHost a' !! "example.com" = Some x
      /\ exists svc port,
           svc ∈ services (cluster "" [webService])
           /\ port ∈ svc_Spec_Ports svc
           /\ assignedFor (cluster "" [webService]) svc port "example.com" x
  | Panic _ => False
  end.
Proof.
  destruct (updateIndex (cluster "" [webService])) as [[a' log]|msg] eqn:E;
    [| vm_compute in E; discriminate].
  assert (is_Some (appsByHost a' !! "example.com")) as [x Hx].
  { vm_compute in E. injection E as <- _. vm_compute. eauto. }
  exists x. split; [exact Hx |].
  exact (updateIndex_sound (cluster "" [webService]) a' log "example.com" x E Hx).
Defined.

Lemma index_keys_classified_witness :
  match updateIndex (cluster "" [webService]) with
  | Ok (a', _) =>
    exists x svc port,
      appsByHost a' !! "node-1:30080" = Some x
      /\ svc ∈ services (cluster "" [webService])
      /\ port ∈ svc_Spec_Ports svc
      /\ TargetURL x
         = @url_Parse plainEnv
             ("http://" +:+ hostPort (svc_Spec_ClusterIP svc) (port_Port port))
  | Panic _ => False
  end.
Proof.
  destruct (updateIndex (cluster "" [webService])) as [[a' log]|msg] eqn:E;
    [| vm_compute in E; discriminate].
  assert (is_Some (appsByHost a' !! "node-1:30080")) as [x Hx].
  { vm_compute in E. injection E as <- _. vm_compute. eauto. }
  destruct (index_keys_classified (cluster "" [webService]) a' log
              "node-1:30080" x E Hx) as (svc & port & Hsvc & Hport & Hurl & _).
  by exists x, svc, port.
Defined.

(** Two services claim the host [shared.example.com]; the second one is
    visited last. *)
Lemma updateIndex_last_writer_wins_witness :
  match updateIndex (cluster "" [claimant "first" "10.0.0.1"; claimant "second" "10.0.0.2"]) with
  | Ok (a', _) =>
    appsByHost a' !! "shared.example.com"
    = Some (@mkApp plainEnv "default" "second" "web" appKindDeployment []
                   (Some ("http://10.0.0.2:80" : @URL plainEnv)))
  | Panic _ => False
  end.
Proof.
  destruct (updateIndex (cluster "" [claimant "first" "10.0.0.1";
                                     claimant "second" "10.0.0.2"]))
    as [[a' log]|msg] eqn:E; [| vm_compute in E; discriminate].
  destruct (updateIndex_last_writer_wins
              (cluster "" [claimant "first" "10.0.0.1"; claimant "second" "10.0.0.2"])
              a' log [claimant "first" "10.0.0.1"] []
              (claimant "second" "10.0.0.2") []
              [] {| port_Name := "http"; port_Port := 80; port_NodePort := 0 |}
              "shared.example.com" ("http://10.0.0.2:80" : @URL plainEnv) E)
    as (dependencies & Hx & log0 & log1 & Hdeps); try reflexivity.
  - vm_compute. discriminate.
  - apply portHosts_ingress; [reflexivity |].
    apply (elem_of_annotatedHostnames _ _ "osiris.dm.gg/ingressHostname"
                                      "shared.example.com"); reflexivity.
  - intros q Hq. by apply elem_of_nil in Hq.
  - intros s q Hs. by apply elem_of_nil in Hs.
  - rewrite Hx. vm_compute in Hdeps. by injection Hdeps as <- _.
Defined.

End host_index_more_examples.

(* ===================================================================== *)
(** * Part XIV: more about scale-to-zero and the collector loop           *)
(* ===================================================================== *)

Section collector_more.

Import zeroscaler.

Implicit Types (c : KubeClient) (m : metricsCollector) (st : LoopState)
  (t : Tick) (trace new : list Event) (counts : gmap string Z).

(** The first thing [scaleToZero] does is to log that it starts. *)
Lemma scaleToZero_shape c kind namespace name trace :
  exists rest,
    scaleToZero c kind namespace name trace
    = trace ++ InfoScaleStarting kind name namespace :: rest
    /\ patchTargets rest
       = match resourceOfKind kind with
         | Some resource => [(resource, namespace, name)]
         | None => []
         end.
Proof.
  unfold scaleToZero. destruct (resourceOfKind kind) as [resource|].
  - destruct (Patch c _ resource namespace name _) as [e|];
      eexists [_; _]; rewrite <- !app_assoc; by simpl.
  - eexists [_]. rewrite <- !app_assoc. by simpl.
Qed.

Lemma scaleDependencies_shape c (dependencies : list string) trace :
  exists new out, scaleDependencies c dependencies trace = (trace ++ new, out).
Proof.
  destruct (scaleDependencies_agree c c dependencies trace trace)
    as (new & _ & out & -> & _). eauto.
Qed.

(** What the method [scaleToZero] adds to the events starts with the log
    line and the patch of the main workload. *)
Lemma method_shape m trace :
  exists new out,
    metricsCollector_scaleToZero m trace = (trace ++ new, out)
    /\ new <> []
    /\ match resourceOfKind (appKind (config m)) with
       | Some resource =>
         exists dependencies,
           patchTargets new
           = (resource, appNamespace (config m), appName (config m))
               :: dependencies
       | None => patchTargets new = []
       end.
Proof.
  unfold metricsCollector_scaleToZero.
  destruct (scaleToZero_shape (kubeClient m) (appKind (config m))
              (appNamespace (config m)) (appName (config m)) trace)
    as (rest & -> & Hrest).
  destruct (resourceOfKind (appKind (config m))) as [resource|].
  - destruct (Get (kubeClient m) resource _ _) as [err|workload].
    + eexists _, Returned. rewrite <- !app_assoc. split; [done |].
      split; [done |]. exists []. simpl.
      by rewrite patchTargets_app, Hrest.
    + destruct (scaleDependencies_shape (kubeClient m)
                  (strings.Split (dependenciesOf workload) ",")
                  ((trace ++ InfoScaleStarting (appKind (config m))
                                (appName (config m)) (appNamespace (config m))
                              :: rest)
                   ++ [GetCall resource (appNamespace (config m))
                               (appName (config m))]))
        as (more & out & ->).
      eexists _, out. rewrite <- !app_assoc. split; [done |].
      split; [done |]. exists (patchTargets more). simpl.
      by rewrite !patchTargets_app, Hrest.
  - simpl. eexists _, Returned. split; [done |]. split; [done |].
    simpl. exact Hrest.
Qed.

Lemma recordScrape_flag_false scrapes counts :
  Forall (fun s : string * option proxyRequestCount => s.2 <> None) scrapes ->
  (foldl recordScrape (false, counts) scrapes).1 = false.
Proof.
  revert counts. induction scrapes as [|[pod [prc|]] scrapes IH];
    intros counts Hall; [done | |].
  - apply Forall_cons in Hall as [_ Hall]. simpl. by apply IH.
  - apply Forall_cons in Hall as [Hnil _]. by destruct Hnil.
Qed.

(** A tick calls the method [scaleToZero] exactly when every scrape
    answered, the timer has not fired, the context is not done and the
    total is the one of the tick before; the events and the outcome of the
    tick are then those of the method. *)
Theorem tick_scales_exactly_when_idle m st t trace :
  (events (tick m st t trace) <> trace
   <-> Forall (fun s => s.2 <> None) (scrapes t)
       /\ timerFired t = false
       /\ ctxDone t = false
       /\ totalRequestCount (tick m st t trace) = lastTotalRequestCount st)
  /\ (events (tick m st t trace) <> trace ->
      events (tick m st t trace) = (metricsCollector_scaleToZero m trace).1
      /\ outcome (tick m st t trace) = (metricsCollector_scaleToZero m trace).2).
Proof.
  rewrite tick_total. unfold tick, recorded.
  pose proof (recordScrape_flag (scrapes t) (requestCountsByProxy st) false)
    as Hflag.
  pose proof (recordScrape_flag_false (scrapes t) (requestCountsByProxy st))
    as Hflag'.
  destruct (foldl recordScrape _ _) as [flag counts]. simpl in *.
  destruct (method_shape m trace) as (new & out & Hrun & Hnew & _).
  assert (trace ++ new <> trace) as Hmoved.
  { intros E. apply Hnew. rewrite <- (app_nil_r trace) in E at 2.
    by apply app_inv_head in E. }
  unfold selectCase.
  destruct (timerFired t), (ctxDone t), (selectsTimer t); simpl;
    try (split; [split; [by intros [] | by intros (_ & ? & ? & _)] | by intros []]).
  all: destruct flag; simpl;
    [split; [split; [by intros [] | intros (Hall & _); by specialize (Hflag' Hall)]
            | by intros []] |].
  all: case_bool_decide as Htotal; simpl;
    [| split; [split; [by intros [] | by intros (_ & _ & _ & ?)] | by intros []]].
  all: rewrite Hrun; destruct out; simpl; split;
    [split; [intros _; split_and!; try done; by apply Hflag | done] | done |
     split; [intros _; split_and!; try done; by apply Hflag | done] | done].
Qed.

(** ** The first tick of a collector *)

Lemma sumCounts_zero counts :
  (forall id n, counts !! id = Some n -> n = 0) -> sumCounts counts = 0.
Proof.
  intros Hzero. unfold sumCounts.
  assert (Forall (fun kv : string * Z => kv.2 = 0) (map_to_list counts)) as Hall.
  { apply Forall_forall. intros [id n] Hin%elem_of_map_to_list. by eapply Hzero. }
  induction Hall as [|[id n] l Hn _ IH]; [done |].
  simpl in *. by rewrite IH, Hn.
Qed.

Lemma lastCount_elem id scrapes n :
  lastCount id scrapes = Some n ->
  exists pod prc, (pod, Some prc) ∈ scrapes /\ RequestCount prc = n.
Proof.
  unfold lastCount. intros [l' Hl']%last_Some.
  assert (n ∈ omap (fun s : string * option proxyRequestCount =>
                      prc ← s.2;
                      if decide (ProxyID prc = id) then Some (RequestCount prc)
                      else None) scrapes) as Hin.
  { rewrite Hl'. apply elem_of_app. right. by apply list_elem_of_singleton. }
  apply list_elem_of_omap in Hin as ([pod [prc|]] & Hin & Hn); simpl in Hn;
    [| done].
  case_decide; [| done]. injection Hn as <-. eauto.
Qed.

(** A collector has no grace period: on its first tick, when every pod
    answers the scrape with a count of zero (and so when the application
    has no pod at all), the timer has not fired and the context is not
    done, it scales to zero, the main workload first. *)
Theorem first_tick_scales_unused_application m t trace :
  Forall (fun s => exists prc, s.2 = Some prc /\ RequestCount prc = 0) (scrapes t) ->
  timerFired t = false ->
  ctxDone t = false ->
  exists new,
    events (tick m initialLoopState t trace) = trace ++ new
    /\ match resourceOfKind (appKind (config m)) with
       | Some resource =>
         exists dependencies,
           patchTargets new
           = (resource, appNamespace (config m), appName (config m))
               :: dependencies
       | None => patchTargets new = []
       end.
Proof.
  intros Hall Htimer Hctx.
  assert (sumCounts (recorded initialLoopState t) = 0) as Hsum.
  { apply sumCounts_zero. intros id n. unfold recorded.
    rewrite recordScrape_counts. simpl.
    destruct (lastCount id (scrapes t)) as [n'|] eqn:Hlast;
      [| by rewrite lookup_empty].
    intros [= <-]. apply lastCount_elem in Hlast as (pod & prc & Hin & <-).
    rewrite Forall_forall in Hall.
    destruct (Hall _ Hin) as (prc' & [= <-] & Hzero). done. }
  assert (Forall (fun s : string * option proxyRequestCount => s.2 <> None)
                 (scrapes t)) as Hok.
  { eapply Forall_impl; [exact Hall |]. by intros s (prc & -> & _). }
  destruct (method_shape m trace) as (new & out & Hrun & _ & Hmain).
  exists new. split; [| done].
  unfold recorded in Hsum. unfold tick.
  pose proof (recordScrape_flag_false (scrapes t)
                (requestCountsByProxy initialLoopState) Hok) as Hflag.
  destruct (foldl recordScrape _ _) as [flag counts]. simpl in *. subst flag.
  unfold selectCase. rewrite Htimer, Hctx. simpl.
  rewrite Hsum, bool_decide_eq_true_2 by done. rewrite Hrun.
  by destruct out.
Qed.

(** ** Errors while scaling to zero *)

(** When the workload cannot be retrieved, the method [scaleToZero] has
    patched the main workload and patches nothing else: it logs the error
    and returns, whatever the dependencies of the workload are. *)
Theorem get_error_leaves_dependencies_alone m trace resource (err : string) :
  resourceOfKind (appKind (config m)) = Some resource ->
  Get (kubeClient m) resource (appNamespace (config m)) (appName (config m))
  = inl err ->
  exists new,
    metricsCollector_scaleToZero m trace = (trace ++ new, Returned)
    /\ patchTargets new
       = [(resource, appNamespace (config m), appName (config m))]
    /\ last new
       = Some (ErrorRetrieving resource (appName (config m))
                               (appNamespace (config m)) err).
Proof.
  intros Hkind Hget. unfold metricsCollector_scaleToZero.
  destruct (scaleToZero_shape (kubeClient m) (appKind (config m))
              (appNamespace (config m)) (appName (config m)) trace)
    as (rest & -> & Hrest).
  rewrite Hkind in *. rewrite Hget.
  eexists. rewrite <- !app_assoc. split; [done |]. split.
  - rewrite patchTargets_app.
    change (patchTargets (InfoScaleStarting (appKind (config m))
                            (appName (config m)) (appNamespace (config m))
                          :: rest))
      with (patchTargets rest).
    by rewrite Hrest.
  - rewrite !app_assoc. apply last_snoc.
Qed.

Lemma SplitN2_whole (c : ascii) (s : string) :
  hasByte c s = false -> strings.SplitN2 s c = [s].
Proof.
  induction s as [|a s IH]; simpl; [done |].
  intros [Hac%bool_decide_eq_false Hno]%orb_false_iff.
  case_decide; [done |]. by rewrite IH.
Qed.

Lemma scaleDependency_lacksSeparator c (dependency : string) trace :
  lacksSeparator dependency ->
  exists msg, scaleDependency c dependency trace = (trace, Panicked msg).
Proof.
  intros [Hne Hlacks]. unfold scaleDependency.
  case_decide as Hlen; [by destruct dependency |].
  destruct Hlacks as [Hno | (kind & rest & -> & Hkind & Hrest)].
  - rewrite (SplitN2_whole ":" dependency Hno). simpl. eauto.
  - rewrite (SplitN2_cut ":" kind rest Hkind). simpl.
    rewrite (SplitN2_whole "/" rest Hrest). simpl. eauto.
Qed.

Lemma scaleDependencies_lacksSeparator c (dependencies : list string)
    (dependency : string) trace :
  dependency ∈ dependencies -> lacksSeparator dependency ->
  exists new msg,
    scaleDependencies c dependencies trace = (trace ++ new, Panicked msg).
Proof.
  intros Hin Hlacks. revert trace.
  induction dependencies as [|d ds IH]; intros trace.
  { by apply elem_of_nil in Hin. }
  simpl.
  destruct (scaleDependency_agree c c d trace trace)
    as (new & _ & out & Hd & _).
  rewrite Hd. destruct out as [|msg]; [| by exists new, msg].
  apply elem_of_cons in Hin as [-> | Hin].
  - destruct (scaleDependency_lacksSeparator c d trace Hlacks) as [msg Hpanic].
    rewrite Hpanic in Hd. discriminate.
  - destruct (IH Hin (trace ++ new)) as (more & msg & ->).
    exists (new ++ more), msg. by rewrite app_assoc.
Qed.

(** An entry of the dependencies annotation that lacks a separator stops
    the method [scaleToZero] with a panic: the main workload has been
    patched by then, and the loop of the collector does not go on. *)
Theorem malformed_dependency_stops_the_collector m trace resource
    (workload : Workload) (dependency : string) :
  resourceOfKind (appKind (config m)) = Some resource ->
  Get (kubeClient m) resource (appNamespace (config m)) (appName (config m))
  = inr workload ->
  dependency ∈ strings.Split (dependenciesOf workload) "," ->
  lacksSeparator dependency ->
  exists new msg dependencies,
    metricsCollector_scaleToZero m trace = (trace ++ new, Panicked msg)
    /\ patchTargets new
       = (resource, appNamespace (config m), appName (config m))
           :: dependencies
    /\ forall st t,
         events (tick m st t trace) <> trace ->
         nextState (tick m st t trace) = None.
Proof.
  intros Hkind Hget Hin Hlacks.
  destruct (method_shape m trace) as (new & out & Hrun & Hnew & Hmain).
  rewrite Hkind in Hmain. destruct Hmain as [dependencies Hmain].
  assert (exists msg, out = Panicked msg) as [msg ->].
  { unfold metricsCollector_scaleToZero in Hrun. rewrite Hkind, Hget in Hrun.
    match type of Hrun with
    | scaleDependencies ?c ?ds ?t0 = _ =>
      destruct (scaleDependencies_lacksSeparator c ds dependency t0 Hin Hlacks)
        as (more & msg & Hpanic)
    end.
    rewrite Hpanic in Hrun. injection Hrun as _ <-. eauto. }
  exists new, msg, dependencies. split_and!; [done | done |].
  intros st t Hmoved.
  destruct (tick_scales_exactly_when_idle m st t trace) as [_ Hthen].
  destruct (Hthen Hmoved) as [_ Hout]. rewrite Hrun in Hout. simpl in Hout.
  revert Hout. unfold tick.
  destruct (foldl recordScrape _ _) as [flag counts].
  destruct (selectCase t); simpl; try done;
    destruct (_ && _); simpl; try done;
    by destruct (metricsCollector_scaleToZero m trace) as [? []].
Qed.

(** An entry built from a kind, a namespace and a name is scaled under
    these: the loop over the dependencies calls [scaleToZero] with them and
    goes on, without looking at the kind itself. *)
Theorem scaleDependency_round_trip c (kind namespace name : string) trace :
  hasByte ":" kind = false -> hasByte "/" namespace = false ->
  scaleDependency c (activator.dependencyEntry kind namespace name) trace
  = (scaleToZero c kind namespace name trace, Returned).
Proof.
  intros Hkind Hns. unfold scaleDependency, activator.dependencyEntry.
  case_decide as Hlen; [destruct kind; discriminate |].
  rewrite (SplitN2_cut ":" kind _ Hkind). simpl.
  by rewrite (SplitN2_cut "/" namespace _ Hns).
Qed.

(** ** The pods the informer reports *)

Lemma handleEvent_carriesPod (ev : InformerEvent) (appPods : gmap string Pod) :
  carriesPod ev <-> exists appPods', handleEvent ev appPods = Ok appPods'.
Proof.
  destruct ev as [[pod|] | old [pod|] | [pod|]]; simpl; split;
    try (intros _; eauto; fail); try done;
    try (intros Hne; by destruct Hne); by intros [? ?].
Qed.

Lemma handleEvent_lookup (ev : InformerEvent) (appPods appPods' : gmap string Pod)
    (name : string) :
  handleEvent ev appPods = Ok appPods' ->
  appPods' !! name
  = match verdictFor name ev with
    | Some verdict => verdict
    | None => appPods !! name
    end.
Proof.
  destruct ev as [[pod|] | old [pod|] | [pod|]]; simpl; try done;
    intros [= <-]; case_decide as Hname;
    try (subst name; by rewrite ?lookup_insert_eq, ?lookup_delete_eq);
    by rewrite ?lookup_insert_ne, ?lookup_delete_ne.
Qed.

(** The handlers of the informer keep [appPods] in step with its events:
    they return for exactly the event sequences that carry a pod wherever a
    handler asserts one (any other object panics), and then a name is
    mapped to the pod of the last add or update for that name, to nothing
    if a delete for that name came last, and as before if no event named
    it. *)
Theorem handleEvents_last_event_wins (evs : list InformerEvent)
    (appPods : gmap string Pod) :
  (Forall carriesPod evs <-> exists appPods', handleEvents evs appPods = Ok appPods')
  /\ forall appPods' name,
       handleEvents evs appPods = Ok appPods' ->
       appPods' !! name
       = match last (omap (verdictFor name) evs) with
         | Some verdict => verdict
         | None => appPods !! name
         end.
Proof.
  unfold handleEvents. split.
  - revert appPods. induction evs as [|ev evs IH]; intros appPods; simpl.
    + split; [eauto | constructor].
    + rewrite Forall_cons, (handleEvent_carriesPod ev appPods). split.
      * intros [[appPods1 ->] Hall]. cbn [mbind result_bind]. by apply IH.
      * intros [appPods' Hok].
        destruct (handleEvent ev appPods) as [appPods1|msg]; [| done].
        split; [eauto |]. apply (IH appPods1). eauto.
  - intros appPods' name. revert appPods appPods'.
    induction evs as [|ev evs IH] using rev_ind; intros appPods appPods'.
    + by intros [= <-].
    + rewrite forM_app. rewrite omap_app.
      destruct (forM handleEvent evs appPods) as [appPods1|msg] eqn:E; [| done].
      cbn [mbind result_bind forM].
      destruct (handleEvent ev appPods1) as [appPods2|msg] eqn:E2; [| done].
      cbn [mbind result_bind]. intros [= <-].
      rewrite (handleEvent_lookup ev appPods1 appPods2 name E2).
      simpl. destruct (verdictFor name ev) as [verdict|].
      * by rewrite last_snoc.
      * rewrite app_nil_r. by apply IH.
Qed.

End collector_more.

(* ===================================================================== *)
(** * Part XV: the admission handler of the proxy injector                *)
(* ===================================================================== *)

Section admission.

Import injector.
Context `{Env}.

Implicit Types (r : HttpRequest) (body : string).

Lemma handleRequest_reviewing r body :
  Body r = Some body -> body <> "" ->
  proxy.Header_Get (Header r) "Content-Type" = "application/json" ->
  handleRequest r = (admissionResponse ← admissionResponseFor body;
                     Ok (writeReview admissionResponse)).
Proof.
  intros Hbody Hne Htype. unfold handleRequest. rewrite Hbody. simpl.
  case_decide as Hlen; [by destruct body |].
  case_decide; done.
Qed.

(** A body that decodes to a review without a request makes the handler
    panic, whether decoding reported an error or not: each of its branches
    reads [ar.Request] without checking it. *)
Theorem review_without_request_panics r body :
  Body r = Some body -> body <> "" ->
  proxy.Header_Get (Header r) "Content-Type" = "application/json" ->
  Request (Decode body).1 = None ->
  exists msg, handleRequest r = Panic msg.
Proof.
  intros Hbody Hne Htype Hnil.
  rewrite (handleRequest_reviewing r body) by done.
  unfold admissionResponseFor.
  destruct (Decode body) as [ar [e|]]; simpl in Hnil; rewrite Hnil; simpl;
    eauto.
Qed.

(** A body that decodes to a review with a request is always answered with
    a review, whose response carries the UID of the request.  It allows the
    request exactly when decoding succeeded, the reviewed object is a Pod,
    the patch operations were computed without error and, if there are any,
    they could be encoded; it carries a patch, of type JSONPatch, exactly
    when it allows the request and there are patch operations; and it
    carries a result message exactly when it does not allow the request. *)
Theorem review_with_request_is_answered r body (request : AdmissionRequest) :
  Body r = Some body -> body <> "" ->
  proxy.Header_Get (Header r) "Content-Type" = "application/json" ->
  Request (Decode body).1 = Some request ->
  let ar := (Decode body).1 in
  let patchOps := (getPodPatchOperations ar).1 in
  exists response,
    handleRequest r = Ok (writeReview response)
    /\ response_UID response = UID request
    /\ (Allowed response = true
        <-> (Decode body).2 = None
            /\ Kind_Kind request = "Pod"
            /\ (getPodPatchOperations ar).2 = None
            /\ (patchOps = [] \/ exists patchBytes,
                                   marshalPatchOps patchOps = inr patchBytes))
    /\ (is_Some (Patch response) <-> Allowed response = true /\ patchOps <> [])
    /\ (PatchTypeOf response = Some PatchTypeJSONPatch <-> is_Some (Patch response))
    /\ (is_Some (Result response) <-> Allowed response = false).
Proof.
  intros Hbody Hne Htype Hreq ar patchOps.
  rewrite (handleRequest_reviewing r body) by done.
  unfold admissionResponseFor. subst ar patchOps.
  destruct (Decode body) as [ar [e|]]; simpl in *; rewrite Hreq; simpl.
  { eexists. split; [done |]. settle_response. }
  case_decide as Hkind; simpl; [| eexists; split; [done |]; settle_response].
  destruct (getPodPatchOperations ar) as [ops [e|]]; simpl.
  { eexists. split; [done |]. settle_response. }
  unfold reviewed. case_decide as Hlen.
  { destruct ops; [| done]. eexists. split; [done |]. settle_response. }
  assert (ops <> []) as Hops by (by destruct ops).
  destruct (marshalPatchOps ops) as [e|patchBytes];
    (eexists; split; [done |]; settle_response).
Qed.

End admission.

Section admission_examples.

Import injector injector_examples.

Lemma review_without_request_panics_witness :
  Request (@Decode plainEnv "garbage").1 = None
  /\ exists msg, @handleRequest plainEnv (post "garbage") = Panic msg.
Proof.
  split; [reflexivity |].
  exact (@review_without_request_panics plainEnv (post "garbage") "garbage"
           eq_refl ltac:(discriminate) eq_refl eq_refl).
Defined.

Lemma review_with_request_is_answered_witness :
  exists response,
    @handleRequest plainEnv (post "Pod") = Ok (@writeReview plainEnv response)
    /\ response_UID response = "uid-1"
    /\ Allowed response = true
    /\ is_Some (Patch response).
Proof.
  destruct (@review_with_request_is_answered plainEnv (post "Pod") "Pod"
              {| UID := "uid-1"; Kind_Kind := "Pod" |}
              eq_refl ltac:(discriminate) eq_refl eq_refl)
    as (response & Hrun & Huid & Hallowed & Hpatch & _).
  assert (Allowed response = true) as Hyes.
  { apply Hallowed. split_and!; try reflexivity. right. by exists "[patch]". }
  exists response. split_and!; [exact Hrun | exact Huid | exact Hyes |].
  apply Hpatch. split; [exact Hyes | discriminate].
Defined.

End admission_examples.

Section collector_more_examples.

Import zeroscaler collector_examples.

(** An application without pods is scaled to zero on the first tick. *)
Lemma first_tick_scales_unused_application_witness :
  exists new,
    events (tick (collector accepting) initialLoopState (quiet []) []) = [] ++ new
    /\ exists dependencies,
         patchTargets new = (Deployments, "ns", "app") :: dependencies.
Proof.
  exact (first_tick_scales_unused_application (collector accepting) (quiet []) []
           (Forall_nil_2 _) eq_refl eq_refl).
Defined.

Lemma get_error_leaves_dependencies_alone_witness :
  exists new,
    metricsCollector_scaleToZero (collector forgetful) [] = ([] ++ new, Returned)
    /\ patchTargets new = [(Deployments, "ns", "app")]
    /\ last new = Some (ErrorRetrieving Deployments "app" "ns" "not found").
Proof.
  exact (get_error_leaves_dependencies_alone (collector forgetful) []
           Deployments "not found" eq_refl eq_refl).
Defined.

Lemma malformed_dependency_stops_the_collector_witness :
  lacksSeparator "db"
  /\ exists new msg dependencies,
       metricsCollector_scaleToZero (collector sloppy) [] = ([] ++ new, Panicked msg)
       /\ patchTargets new = (Deployments, "ns", "app") :: dependencies
       /\ forall st t,
            events (tick (collector sloppy) st t []) <> [] ->
            nextState (tick (collector sloppy) st t []) = None.
Proof.
  assert (lacksSeparator "db") as Hlacks.
  { split; [discriminate | by left]. }
  split; [exact Hlacks |].
  refine (malformed_dependency_stops_the_collector (collector sloppy) []
            Deployments
            {| Annotations := Some {[ "osiris.dm.gg/dependencies" := "db" ]} |}
            "db" eq_refl eq_refl _ Hlacks).
  apply list_elem_of_here.
Defined.

Lemma scaleDependency_round_trip_witness :
  scaleDependency accepting (activator.dependencyEntry "statefulset" "data" "pg") []
  = (scaleToZero accepting "statefulset" "data" "pg" [], Returned).
Proof.
  exact (scaleDependency_round_trip accepting "statefulset" "data" "pg" []
           eq_refl eq_refl).
Defined.

End collector_more_examples.
